(** * klogr: a logr.Logger on top of klog

    Shallow embedding of [pkg/logger/klogr/klogr.go] and the properties of
    its deduplication, formatting, caller resolution, state derivation and
    dispatch.

    Conventions of the embedding:
    - a Go [interface{}] is a [value], a small closed universe of dynamic
      types that covers every branch the package takes on a value;
    - a Go string is a [string] (a sequence of bytes);
    - a function that can panic returns an [outcome];
    - slices live in a [heap] of backing arrays, so that aliasing between
      logger states is visible;
    - the klog backend is a [sink]: a verbosity threshold and the list of
      records written so far. *)

From Stdlib Require Import ZArith Ascii String List Lia.
From stdpp Require Import base decidable countable gmap list strings.

Set Warnings "-clear-no-such-hyp".

Local Open Scope string_scope.
Local Open Scope list_scope.

(** ** Go values *)

(** Dynamic values stored in an [interface{}].  [Err] and [Stringer] stand
    for values of comparable named types that implement [error] and
    [fmt.Stringer]; the payload is what [Error()] and [String()] return.
    [IntSlice] is an [[]int]: a type that is not comparable and hence cannot
    be a map key. *)
Inductive value : Type :=
  | Nil
  | Str (s : string)
  | Int (n : Z)
  | Bool (b : bool)
  | Err (msg : string)
  | Stringer (repr : string)
  | IntSlice (elems : list Z).

#[global] Instance value_eq_dec : EqDecision value.
Proof. solve_decision. Defined.

Definition value_encode (v : value)
  : unit + string + Z + bool + string + string + list Z :=
  match v with
  | Nil => inl (inl (inl (inl (inl (inl tt)))))
  | Str s => inl (inl (inl (inl (inl (inr s)))))
  | Int n => inl (inl (inl (inl (inr n))))
  | Bool b => inl (inl (inl (inr b)))
  | Err m => inl (inl (inr m))
  | Stringer r => inl (inr r)
  | IntSlice l => inr l
  end.

Definition value_decode
  (x : unit + string + Z + bool + string + string + list Z) : value :=
  match x with
  | inl (inl (inl (inl (inl (inl _))))) => Nil
  | inl (inl (inl (inl (inl (inr s))))) => Str s
  | inl (inl (inl (inl (inr n)))) => Int n
  | inl (inl (inl (inr b))) => Bool b
  | inl (inl (inr m)) => Err m
  | inl (inr r) => Stringer r
  | inr l => IntSlice l
  end.

#[global] Instance value_countable : Countable value.
Proof.
  refine (inj_countable' value_encode value_decode _).
  intros []; reflexivity.
Defined.

(** The Go runtime hashes a map key through its dynamic type; slices, maps
    and functions have no hash and the map access panics. *)
Definition hashable (v : value) : bool :=
  match v with
  | IntSlice _ => false
  | _ => true
  end.

(** ** Panics *)

Inductive outcome (A : Type) : Type :=
  | Ok (a : A)
  | Panic (reason : string).
Arguments Ok {A} a.
Arguments Panic {A} reason.

#[global] Instance outcome_ret : MRet outcome := fun A a => Ok a.
#[global] Instance outcome_bind : MBind outcome := fun A B f m =>
  match m with
  | Ok a => f a
  | Panic r => Panic r
  end.

Definition returns {A} (m : outcome A) : bool :=
  match m with Ok _ => true | Panic _ => false end.

Definition unhashable_panic : string :=
  "runtime error: hash of unhashable type []int".

(** ** The fmt verbs used by the package *)

Module Fmt.

Definition hex_digit (n : N) : ascii :=
  ascii_of_N (if (n <? 10)%N then 48 + n else 87 + n).

Definition hex2 (c : ascii) : string :=
  let n := N_of_ascii c in
  String (hex_digit (n / 16)) (String (hex_digit (n mod 16)) EmptyString).

(** [strconv.Quote] of a byte that stands for itself: an ASCII character,
    or a byte that belongs to no valid UTF-8 sequence, which Go writes as
    [\xNN]. *)
Definition escape_byte (c : ascii) : string :=
  let n := N_of_ascii c in
  if (n =? 34)%N then "\" +:+ String c EmptyString
  else if (n =? 92)%N then "\\"
  else if ((32 <=? n) && (n <? 127))%N then String c EmptyString
  else if (n =? 7)%N then "\a"
  else if (n =? 8)%N then "\b"
  else if (n =? 12)%N then "\f"
  else if (n =? 10)%N then "\n"
  else if (n =? 13)%N then "\r"
  else if (n =? 9)%N then "\t"
  else if (n =? 11)%N then "\v"
  else "\x" +:+ hex2 c.

Definition between (lo hi b : N) : bool := ((lo <=? b) && (b <=? hi))%N.

Definition continuation (b : N) : bool := between 128 191 b.

(** [utf8.DecodeRuneInString] on the first two, three and four bytes: the
    code point, when the bytes are its valid encoding (no overlong form, no
    surrogate, nothing above U+10FFFF). *)
Definition decode2 (b1 b2 : N) : option N :=
  if between 194 223 b1 && continuation b2
  then Some (b1 mod 32 * 64 + b2 mod 64)%N
  else None.

Definition decode3 (b1 b2 b3 : N) : option N :=
  if (((b1 =? 224)%N && between 160 191 b2)
      || ((between 225 236 b1 || between 238 239 b1) && continuation b2)
      || ((b1 =? 237)%N && between 128 159 b2))
     && continuation b3
  then Some (b1 mod 16 * 4096 + b2 mod 64 * 64 + b3 mod 64)%N
  else None.

Definition decode4 (b1 b2 b3 b4 : N) : option N :=
  if (((b1 =? 240)%N && between 144 191 b2)
      || (between 241 243 b1 && continuation b2)
      || ((b1 =? 244)%N && between 128 143 b2))
     && continuation b3 && continuation b4
  then Some (b1 mod 8 * 262144 + b2 mod 64 * 4096 + b3 mod 64 * 64 + b4 mod 64)%N
  else None.

(** Code points above U+00FF that are spaces, format characters, private
    use or non-characters.  This list stands for the tables of
    [strconv.IsPrint], which are not part of the package: code points that
    are unassigned in the Unicode version of the toolchain are not in it. *)
Definition wide_unprintable (r : N) : bool :=
  (r =? 5760)%N || (r =? 6158)%N
  || between 8192 8207 r || between 8232 8239 r || between 8287 8303 r
  || (r =? 12288)%N || between 57344 63743 r || (r =? 65279)%N
  || between 65520 65531 r || between 65534 65535 r
  || between 983040 1114111 r.

(** [strconv.IsPrint] on a code point above U+007F: in Latin-1 all of
    U+00A1 to U+00FF but the soft hyphen U+00AD. *)
Definition IsPrint (r : N) : bool :=
  if (r <=? 255)%N then (161 <=? r)%N && negb (r =? 173)%N
  else negb (wide_unprintable r).

Definition hex4 (r : N) : string :=
  String (hex_digit (r / 4096 mod 16)) (String (hex_digit (r / 256 mod 16))
    (String (hex_digit (r / 16 mod 16)) (String (hex_digit (r mod 16)) EmptyString))).

(** A decoded code point above U+007F: its own bytes when printable, the
    [\u] or [\U] escape otherwise. *)
Definition escape_rune (r : N) (bytes : string) : string :=
  if IsPrint r then bytes
  else if (r <? 65536)%N then "\u" +:+ hex4 r
  else "\U" +:+ hex4 (r / 65536) +:+ hex4 (r mod 65536).

(** The body of [strconv.Quote]: the string is read one UTF-8 sequence at a
    time; a byte that starts no valid sequence is escaped on its own. *)
Fixpoint escape (s : string) : string :=
  match s with
  | EmptyString => EmptyString
  | String c1 s1 =>
      let b1 := N_of_ascii c1 in
      let invalid := escape_byte c1 +:+ escape s1 in
      if (b1 <? 128)%N then escape_byte c1 +:+ escape s1
      else
        match s1 with
        | EmptyString => invalid
        | String c2 s2 =>
            match decode2 b1 (N_of_ascii c2) with
            | Some r =>
                escape_rune r (String c1 (String c2 EmptyString)) +:+ escape s2
            | None =>
                match s2 with
                | EmptyString => invalid
                | String c3 s3 =>
                    match decode3 b1 (N_of_ascii c2) (N_of_ascii c3) with
                    | Some r =>
                        escape_rune r
                          (String c1 (String c2 (String c3 EmptyString)))
                        +:+ escape s3
                    | None =>
                        match s3 with
                        | EmptyString => invalid
                        | String c4 s4 =>
                            match decode4 b1 (N_of_ascii c2) (N_of_ascii c3)
                                    (N_of_ascii c4) with
                            | Some r =>
                                escape_rune r
                                  (String c1 (String c2 (String c3
                                     (String c4 EmptyString))))
                                +:+ escape s4
                            | None => invalid
                            end
                        end
                    end
                end
            end
        end
  end.

Definition dquote : string := String (ascii_of_N 34) EmptyString.

Definition Quote (s : string) : string := dquote +:+ escape s +:+ dquote.

(** Decimal rendering of an integer, as [strconv.Itoa]. *)
Definition Itoa (n : Z) : string := pretty.pretty n.

Definition bool_text (b : bool) : string := if b then "true" else "false".

Definition join (sep : string) (l : list string) : string :=
  String.concat sep l.

(** [%s].  A string, an error and a Stringer print their text; the verb
    is wrong for the other types and fmt prints its [%!s(type=value)]
    diagnostic instead (element by element inside a slice). *)
Definition verb_s (v : value) : string :=
  match v with
  | Nil => "%!s(<nil>)"
  | Str s => s
  | Int n => "%!s(int=" +:+ Itoa n +:+ ")"
  | Bool b => "%!s(bool=" +:+ bool_text b +:+ ")"
  | Err m => m
  | Stringer r => r
  | IntSlice l =>
      "[" +:+ join " " (map (fun n => "%!s(int=" +:+ Itoa n +:+ ")") l) +:+ "]"
  end.

(** [%+v]. *)
Definition verb_plus_v (v : value) : string :=
  match v with
  | Nil => "<nil>"
  | Str s => s
  | Int n => Itoa n
  | Bool b => bool_text b
  | Err m => m
  | Stringer r => r
  | IntSlice l => "[" +:+ join " " (map Itoa l) +:+ "]"
  end.

(** [%q] of one ASCII code point, as [strconv.QuoteRune]; other code
    points print as the replacement escape. *)
Definition quote_rune (n : Z) : string :=
  if ((0 <=? n) && (n <? 128))%Z
  then
    let c := ascii_of_N (Z.to_N n) in
    if (n =? 39)%Z then "'\''"
    else if (n =? 34)%Z then "'" +:+ dquote +:+ "'"
    else "'" +:+ escape_byte c +:+ "'"
  else "'\ufffd'".

(** [%q].  The package applies it to strings, errors and Stringers only,
    where it prints the quoted text; the other cases are listed for
    completeness. *)
Definition verb_q (v : value) : string :=
  match v with
  | Nil => "%!q(<nil>)"
  | Str s => Quote s
  | Int n => quote_rune n
  | Bool b => "%!q(bool=" +:+ bool_text b +:+ ")"
  | Err m => Quote m
  | Stringer r => Quote r
  | IntSlice l => "[" +:+ join " " (map quote_rune l) +:+ "]"
  end.

(** [fmt.Sprintf("%s=%q", k, v)] and [fmt.Sprintf("%s=%+v", k, v)]. *)
Definition Sprintf_s_q (k v : value) : string := verb_s k +:+ "=" +:+ verb_q v.
Definition Sprintf_s_plus_v (k v : value) : string :=
  verb_s k +:+ "=" +:+ verb_plus_v v.

Definition is_string (v : value) : bool :=
  match v with Str _ => true | _ => false end.

(** [fmt.Sprint]: operands printed with [%v], a space added between two
    operands when neither is a string. *)
Fixpoint Sprint_from (first prev_string : bool) (args : list value) : string :=
  match args with
  | [] => EmptyString
  | a :: rest =>
      (if negb first && negb (is_string a) && negb prev_string then " " else EmptyString)
      +:+ verb_plus_v a +:+ Sprint_from false (is_string a) rest
  end.

Definition Sprint (args : list value) : string := Sprint_from true false args.

End Fmt.



(** ** Indexing *)

(** [a[i]] on a slice: a panic when [i] is out of range. *)
Definition index {A} (a : list A) (i : nat) : outcome A :=
  match a !! i with
  | Some x => Ok x
  | None => Panic "runtime error: index out of range"
  end.

(** [a[i] = x]. *)
Definition assign {A} (a : list A) (i : nat) (x : A) : outcome (list A) :=
  if (i <? length a)%nat then Ok (<[i := x]> a)
  else Panic "runtime error: index out of range".

(** [_, ok := m[k]] on a [map[interface{}]struct{}]. *)
Definition map_has_key (m : gset value) (k : value) : outcome bool :=
  if hashable k then Ok (bool_decide (k ∈ m)) else Panic unhashable_panic.

(** ** Caller resolver *)

Definition autogeneratedFrameName : string := "<autogenerated>".

(** The call stack as [runtime.Caller] reports it from inside
    [framesToCaller]: [stack skip] is the file name of the frame [skip]
    levels up (the empty string where there is no such frame). *)
Definition callstack := nat -> string.

(** The loop [for i := 1; i < 3; i++], with [n] iterations left. *)
Fixpoint framesToCaller_loop (stack : callstack) (n i : nat) : nat :=
  match n with
  | O => 1
  | S n' =>
      let file := stack (i + 1) in
      if negb (String.eqb file autogeneratedFrameName) then i
      else framesToCaller_loop stack n' (i + 1)
  end.

Definition framesToCaller (stack : callstack) : nat :=
  framesToCaller_loop stack 2 1.

(** ** Deduplication *)

(** First index of the backwards scan, [len(kvList) - 2 + (len(kvList) % 2)]. *)
Definition scan_start (len : nat) : Z :=
  (Z.of_nat len - 2 + Z.of_nat len mod 2)%Z.

(** Number of indices visited by [for i2 := start; i2 >= 0; i2 -= 2]. *)
Definition scan_count (start : Z) : nat := Z.to_nat (start / 2 + 1).

(** The inner loop over one layer, [n] iterations left: the iteration
    visits [i2 = 2 * (n - 1)]. *)
Fixpoint trim_layer (kvList : list value) (i n : nat)
    (seenKeys : gset value) (outs : list (list value))
    : outcome (gset value * list (list value)) :=
  match n with
  | O => Ok (seenKeys, outs)
  | S n' =>
      let i2 := 2 * n' in
      k ← index kvList i2;
      ok ← map_has_key seenKeys k;
      if (ok : bool) then trim_layer kvList i n' seenKeys outs
      else
        let seenKeys := {[k]} ∪ seenKeys in
        v ← (if (i2 + 1 <? length kvList)%nat then index kvList (i2 + 1) else Ok Nil);
        cur ← index outs i;
        outs ← assign outs i (k :: v :: cur);
        trim_layer kvList i n' seenKeys outs
  end.

(** The outer loop [for i := len(kvLists) - 1; i >= 0; i--], [n] iterations
    left: the iteration visits [i = n - 1]. *)
Fixpoint trim_layers (kvLists : list (list value)) (n : nat)
    (seenKeys : gset value) (outs : list (list value))
    : outcome (list (list value)) :=
  match n with
  | O => Ok outs
  | S i =>
      outs ← assign outs i [];
      kvList ← index kvLists i;
      '(seenKeys, outs) ←
        trim_layer kvList i (scan_count (scan_start (length kvList))) seenKeys outs;
      trim_layers kvLists i seenKeys outs
  end.

Definition trimDuplicates (kvLists : list (list value))
    : outcome (list (list value)) :=
  let seenKeys : gset value := ∅ in
  let outs := replicate (length kvLists) [] in
  trim_layers kvLists (length kvLists) seenKeys outs.

(** ** Value formatter *)

Definition missingValue : string := "(MISSING)".

Definition implements_Stringer (v : value) : bool :=
  match v with Stringer _ => true | _ => false end.

(** The body of the [switch v.(type)]. *)
Definition format_pair (k v : value) : string :=
  match v with
  | Str _ | Err _ => Fmt.Sprintf_s_q k v
  | _ =>
      if implements_Stringer v then Fmt.Sprintf_s_q k v
      else Fmt.Sprintf_s_plus_v k v
  end.

(** The loop [for i := 0; i < len(keysAndValues); i += 2], [n] iterations
    left, [b] the buffer. *)
Fixpoint kvListFormat_loop (keysAndValues : list value) (n i : nat)
    (b : string) : outcome string :=
  match n with
  | O => Ok b
  | S n' =>
      k ← index keysAndValues i;
      v ← (if (i + 1 <? length keysAndValues)%nat then index keysAndValues (i + 1)
           else Ok (Str missingValue));
      let b := if (0 <? i)%nat then b +:+ " " else b in
      let b := b +:+ format_pair k v in
      kvListFormat_loop keysAndValues n' (i + 2) b
  end.

Definition kvListFormat (keysAndValues : list value) : outcome string :=
  kvListFormat_loop keysAndValues ((length keysAndValues + 1) / 2) 0 EmptyString.

(** ** Assembling the message *)

(** [concatenate] builds the operand list handed to klog.  [args] is nil
    exactly when nothing has been appended, which is the empty list here. *)
Definition concatenate_step (args : list value) (piece : string) : list value :=
  if String.eqb piece EmptyString then args
  else
    let args := match args with [] => args | _ => args ++ [Str " "] end in
    args ++ [Str piece].

Definition concatenate (prefix : string) (pieces : list string) : list value :=
  let args := if String.eqb prefix EmptyString then [] else [Str (prefix +:+ ":")] in
  fold_left concatenate_step pieces args.



(** ** Slices and their backing arrays *)

(** The heap maps the address of a backing array to its contents; the
    length of the stored list is the capacity of the array. *)
Abbreviation heap := (gmap nat (list value)).

Module Go.

(** A slice header.  The package never re-slices, so a slice always
    starts at the first element of its array. *)
Inductive slice : Type :=
  | nil_slice
  | Slice (addr len cap : nat).

Definition len (s : slice) : nat :=
  match s with nil_slice => 0 | Slice _ n _ => n end.

Definition cap (s : slice) : nat :=
  match s with nil_slice => 0 | Slice _ _ c => c end.

(** The elements seen through a slice. *)
Definition load (h : heap) (s : slice) : list value :=
  match s with
  | nil_slice => []
  | Slice a n _ => take n (default [] (h !! a))
  end.

(** [make([]interface{}, n)]: a new array of [n] nil interfaces. *)
Definition make (n : nat) (h : heap) : slice * heap :=
  let a := fresh (dom h) in
  (Slice a n n, <[a := replicate n Nil]> h).

(** [copy(dst, src)]: the first [min(len(dst), len(src))] elements of
    [src] overwrite those of [dst]. *)
Definition copy (dst src : slice) (h : heap) : heap :=
  match dst with
  | nil_slice => h
  | Slice a _ _ =>
      let n := min (len dst) (len src) in
      match h !! a with
      | Some arr => <[a := take n (load h src) ++ drop n arr]> h
      | None => h
      end
  end.

Section Append.

(** Spare capacity the runtime adds when it grows a slice, from the old
    capacity and the length needed. *)
Variable growslice_spare : nat -> nat -> nat.

(** [append(s, xs...)]: in place when the capacity suffices, into a new
    array otherwise. *)
Definition append (s : slice) (xs : list value) (h : heap) : slice * heap :=
  let needed := len s + length xs in
  if (needed <=? cap s)%nat then
    match s with
    | nil_slice => (nil_slice, h)
    | Slice a n c =>
        match h !! a with
        | Some arr =>
            (Slice a needed c,
             <[a := take n arr ++ xs ++ drop needed arr]> h)
        | None => (Slice a needed c, h)
        end
    end
  else
    let a := fresh (dom h) in
    let spare := growslice_spare (cap s) needed in
    (Slice a needed (needed + spare),
     <[a := load h s ++ xs ++ replicate spare Nil]> h).

End Append.

End Go.

(** ** The klog backend *)

Module klog.

Inductive severity : Type := infoLog | errorLog.

(** One record handed to the backend: its severity, the call depth and
    the message text (before klog adds its header and line end). *)
Record entry : Type := Entry {
  entry_severity : severity;
  entry_depth : nat;
  entry_text : string
}.

(** The state of the backend: the global [-v] threshold and what has been
    written. *)
Record sink : Type := Sink {
  verbosity : Z;
  written : list entry
}.

(** [klog.Level] is an [int32]: the conversion from [int] wraps. *)
Definition Level (n : Z) : Z :=
  ((n + 2 ^ 31) mod 2 ^ 32 - 2 ^ 31)%Z.

(** [klog.V(level).Enabled()] against the global threshold. *)
Definition V_Enabled (level : Z) (s : sink) : bool :=
  (level <=? verbosity s)%Z.

Definition printDepth (sev : severity) (depth : nat) (args : list value)
    (s : sink) : sink :=
  {| verbosity := verbosity s;
     written := written s ++ [Entry sev depth (Fmt.Sprint args)] |}.

Definition InfoDepth := printDepth infoLog.
Definition ErrorDepth := printDepth errorLog.

End klog.

(** ** Logger state *)

Record klogger : Type := Klogger {
  level : Z;
  prefix : string;
  values : Go.slice
}.

Definition New : klogger :=
  {| level := 0; prefix := EmptyString; values := Go.nil_slice |}.

Definition copySlice (in_ : Go.slice) (h : heap) : Go.slice * heap :=
  let '(out, h) := Go.make (Go.len in_) h in
  (out, Go.copy out in_ h).

Definition clone (l : klogger) (h : heap) : klogger * heap :=
  let '(vs, h) := copySlice (values l) h in
  ({| level := level l; prefix := prefix l; values := vs |}, h).

Definition V (l : klogger) (lvl : Z) (h : heap) : klogger * heap :=
  let '(new, h) := clone l h in
  ({| level := lvl; prefix := prefix new; values := values new |}, h).

Definition WithName (l : klogger) (name : string) (h : heap) : klogger * heap :=
  let '(new, h) := clone l h in
  let new :=
    if (0 <? String.length (prefix l))%nat
    then {| level := level new; prefix := prefix l +:+ "/"; values := values new |}
    else new in
  ({| level := level new; prefix := prefix new +:+ name; values := values new |}, h).

Section WithValues.

Variable growslice_spare : nat -> nat -> nat.

Definition WithValues (l : klogger) (kvList : list value) (h : heap)
    : klogger * heap :=
  let '(new, h) := clone l h in
  let '(vs, h) := Go.append growslice_spare (values new) kvList h in
  ({| level := level new; prefix := prefix new; values := vs |}, h).

End WithValues.

(** ** Dispatch *)

Definition Enabled (l : klogger) (s : klog.sink) : bool :=
  klog.V_Enabled (klog.Level (level l)) s.

(** An [error] argument: [None] is the nil error, [Some msg] an error whose
    [Error()] is [msg].  Stored in an [interface{}] it becomes a [value]. *)
Definition error_value (err : option string) : value :=
  match err with
  | None => Nil
  | Some msg => Err msg
  end.

Definition Info (l : klogger) (msg : string) (kvList : list value)
    (stack : callstack) (h : heap) (s : klog.sink) : outcome klog.sink :=
  if Enabled l s then
    trimmed ← trimDuplicates [Go.load h (values l); kvList];
    t0 ← index trimmed 0;
    fixedStr ← kvListFormat t0;
    t1 ← index trimmed 1;
    userStr ← kvListFormat t1;
    Ok (klog.InfoDepth (framesToCaller stack)
          (concatenate (prefix l) [msg; fixedStr; userStr]) s)
  else Ok s.

Definition Error (l : klogger) (err : option string) (msg : string)
    (kvList : list value) (stack : callstack) (h : heap) (s : klog.sink)
    : outcome klog.sink :=
  errStr ← kvListFormat [Str "err"; error_value err];
  trimmed ← trimDuplicates [Go.load h (values l); kvList];
  t0 ← index trimmed 0;
  fixedStr ← kvListFormat t0;
  t1 ← index trimmed 1;
  userStr ← kvListFormat t1;
  Ok (klog.ErrorDepth (framesToCaller stack)
        (concatenate (prefix l) [msg; errStr; fixedStr; userStr]) s).

(** ** Vocabulary of the statements *)

(** The key/value pairs of a layer, read from the front two entries at a
    time; a final key without a value is paired with [d]. *)
Fixpoint pairs_with (d : value) (kvList : list value) : list (value * value) :=
  match kvList with
  | [] => []
  | [k] => [(k, d)]
  | k :: v :: rest => (k, v) :: pairs_with d rest
  end.

(** As [trimDuplicates] reads a layer: the value of a final lone key is nil. *)
Definition pairs : list value -> list (value * value) := pairs_with Nil.

(** As [kvListFormat] reads a layer: the value of a final lone key is the
    string [missingValue]. *)
Definition entries : list value -> list (value * value) :=
  pairs_with (Str missingValue).

Definition keys (kvList : list value) : list value := (pairs kvList).*1.

Definition flatten (ps : list (value * value)) : list value :=
  ps ≫= (fun kv => [kv.1; kv.2]).

Definition keys_hashable (kvList : list value) : bool :=
  forallb hashable (keys kvList).

Definition layers_hashable (kvLists : list (list value)) : bool :=
  forallb keys_hashable kvLists.

(** One layer deduplicated against the keys in [seen]: scanning from the
    right, a pair is kept when its key has not been met. *)
Fixpoint keep_last (seen : gset value) (ps : list (value * value))
    : gset value * list (value * value) :=
  match ps with
  | [] => (seen, [])
  | (k, v) :: rest =>
      let '(seen', out) := keep_last seen rest in
      if decide (k ∈ seen') then (seen', out)
      else ({[k]} ∪ seen', (k, v) :: out)
  end.

(** All layers, the last one first. *)
Fixpoint dedup_layers (seen : gset value) (kvLists : list (list value))
    : gset value * list (list value) :=
  match kvLists with
  | [] => (seen, [])
  | kvList :: rest =>
      let '(seen', outs) := dedup_layers seen rest in
      let '(seen'', out) := keep_last seen' (pairs kvList) in
      (seen'', flatten out :: outs)
  end.

(** The rendering of a layer that [kvListFormat] is shown to compute. *)
Definition render (kvList : list value) : string :=
  Fmt.join " " (map (fun kv => format_pair kv.1 kv.2) (entries kvList)).

Definition nonempty (s : string) : bool := negb (String.eqb s EmptyString).

(** Pieces joined by single spaces, the empty ones left out. *)
Definition assemble (pieces : list string) : string :=
  Fmt.join " " (filter (fun p => nonempty p = true) pieces).

(** A slice header that points into the heap: its array is allocated and
    as long as the capacity, and the length is within the capacity. *)
Definition valid_slice (h : heap) (s : Go.slice) : Prop :=
  match s with
  | Go.nil_slice => True
  | Go.Slice a n c => exists arr, h !! a = Some arr /\ length arr = c /\ n <= c
  end.

Definition wf (h : heap) (l : klogger) : Prop := valid_slice h (values l).

(** The address of the array behind a slice is not allocated in [h]. *)
Definition fresh_in (h : heap) (s : Go.slice) : Prop :=
  match s with
  | Go.nil_slice => True
  | Go.Slice a _ _ => h !! a = None
  end.

(** The three derivations of a logger from another. *)
Inductive mutator : Type :=
  | MutV (lvl : Z)
  | MutWithName (name : string)
  | MutWithValues (kvList : list value).

Definition mutate (spare : nat -> nat -> nat) (l : klogger) (m : mutator)
    (h : heap) : klogger * heap :=
  match m with
  | MutV lvl => V l lvl h
  | MutWithName name => WithName l name h
  | MutWithValues kvList => WithValues spare l kvList h
  end.

(** A chain of derivations, each from the result of the one before. *)
Fixpoint derive (spare : nat -> nat -> nat) (l : klogger) (ms : list mutator)
    (h : heap) : klogger * heap :=
  match ms with
  | [] => (l, h)
  | m :: rest =>
      let '(l', h') := mutate spare l m h in
      derive spare l' rest h'
  end.

(** The values a derivation adds to those of its parent. *)
Definition added (m : mutator) : list value :=
  match m with
  | MutWithValues kvList => kvList
  | _ => []
  end.

(** Strings as operands, a single space between two neighbours. *)
Definition interleave (ps : list string) : list value :=
  match ps with
  | [] => []
  | p :: rest => Str p :: (rest ≫= fun q => [Str " "; Str q])
  end.

(** The two layers of a call after deduplication: the per-call layer is
    scanned first, the accumulated one against the keys met there. *)
Definition trimmed_user (kvList : list value) : list value :=
  flatten (keep_last ∅ (pairs kvList)).2.

Definition trimmed_fixed (vals kvList : list value) : list value :=
  flatten (keep_last (keep_last ∅ (pairs kvList)).1 (pairs vals)).2.

(** The text of the record written by [Info] and by [Error]. *)
Definition info_text (pre msg : string) (vals kvList : list value) : string :=
  Fmt.Sprint (concatenate pre
    [msg; render (trimmed_fixed vals kvList); render (trimmed_user kvList)]).

Definition error_text (pre : string) (err : option string) (msg : string)
    (vals kvList : list value) : string :=
  Fmt.Sprint (concatenate pre
    [msg; render [Str "err"; error_value err];
     render (trimmed_fixed vals kvList); render (trimmed_user kvList)]).

(** [sub] occurs in [s]. *)
Definition contains (sub s : string) : bool :=
  match String.index 0 sub s with
  | Some _ => true
  | None => false
  end.

(** [sub] is a part of [s]. *)
Definition occurs_in (sub s : string) : Prop :=
  exists front back, s = front +:+ sub +:+ back.

(** Names without the empty ones at the front. *)
Fixpoint skip_empty (names : list string) : list string :=
  match names with
  | [] => []
  | n :: rest => if String.eqb n EmptyString then skip_empty rest else names
  end.

(** All pairs of all layers, in order. *)
Definition merged (kvLists : list (list value)) : list (value * value) :=
  kvLists ≫= pairs.

(** The pairs of [ps] whose key occurs neither further right in [ps] nor
    in [later]. *)
Fixpoint keep_unless_later (later : list value) (ps : list (value * value))
    : list (value * value) :=
  match ps with
  | [] => []
  | (k, v) :: rest =>
      if decide (k ∈ rest.*1 ++ later) then keep_unless_later later rest
      else (k, v) :: keep_unless_later later rest
  end.

(** The pairs of [ps] that have no pair with the same key after them. *)
Definition last_occurrences (ps : list (value * value)) : list (value * value) :=
  keep_unless_later [] ps.

(** A heap with one array of capacity 4 and a logger whose values are its
    first two elements. *)
Definition spare_heap : heap := {[ 0 := [Str "p"; Int 0; Nil; Nil] ]}.
Definition spare_parent : klogger :=
  {| level := 0; prefix := EmptyString; values := Go.Slice 0 2 4 |}.

(** A string given by its bytes. *)
Definition bytes_string (bs : list N) : string :=
  fold_right (fun b s => String (ascii_of_N b) s) EmptyString bs.

(** The growth policy and the call stacks used in the examples. *)
(** A growth policy: as much spare capacity as the old capacity. *)
Definition double_spare (old needed : nat) : nat := old.
Definition app_stack : callstack := fun _ => "main.go".
Definition wrapped_stack : callstack :=
  fun skip => if (skip =? 2)%nat then autogeneratedFrameName else "main.go".

(** * Properties *)

(** ** Evaluation on the examples of the documentation *)

Example Quote_plain :
  Fmt.Quote "v" = String (ascii_of_N 34) ("v" +:+ String (ascii_of_N 34) EmptyString).
Proof. reflexivity. Qed.

Example Quote_latin1 :
  Fmt.escape (bytes_string [195; 169]%N) = bytes_string [195; 169]%N.
Proof. vm_compute. reflexivity. Qed.

Example Quote_wide :
  Fmt.escape (bytes_string [228; 184; 150; 240; 159; 152; 128]%N)
  = bytes_string [228; 184; 150; 240; 159; 152; 128]%N.
Proof. vm_compute. reflexivity. Qed.

Example Quote_no_break_space : Fmt.escape (bytes_string [194; 160]%N) = "\u00a0".
Proof. vm_compute. reflexivity. Qed.

Example Quote_zero_width_space :
  Fmt.escape (bytes_string [226; 128; 139]%N) = "\u200b".
Proof. vm_compute. reflexivity. Qed.

Example Quote_private_plane :
  Fmt.escape (bytes_string [243; 176; 128; 128]%N) = "\U000f0000".
Proof. vm_compute. reflexivity. Qed.

Example Quote_invalid_bytes :
  Fmt.escape (bytes_string [255; 192; 128; 237; 160; 128; 195]%N)
  = "\xff\xc0\x80\xed\xa0\x80\xc3".
Proof. vm_compute. reflexivity. Qed.

Example Quote_control : Fmt.escape (bytes_string [9; 27; 127; 34; 92]%N) =
  "\t\x1b\x7f\" +:+ Fmt.dquote +:+ "\\".
Proof. vm_compute. reflexivity. Qed.

Example Itoa_neg : Fmt.Itoa (-12) = "-12".
Proof. vm_compute. reflexivity. Qed.

Example trimDuplicates_same_layer :
  trimDuplicates [[Str "a"; Int 1; Str "a"; Int 2]] = Ok [[Str "a"; Int 2]].
Proof. vm_compute. reflexivity. Qed.

Example trimDuplicates_odd :
  trimDuplicates [[Str "a"; Int 1; Str "b"]] = Ok [[Str "a"; Int 1; Str "b"; Nil]].
Proof. vm_compute. reflexivity. Qed.

Example kvListFormat_kv :
  kvListFormat [Str "a"; Int 1; Str "b"; Str "x y"]
  = Ok ("a=1 b=" +:+ Fmt.Quote "x y").
Proof. vm_compute. reflexivity. Qed.

Example framesToCaller_wrapped : framesToCaller wrapped_stack = 2.
Proof. reflexivity. Qed.

Example contains_found : contains "k=" "msg k=<nil>" = true.
Proof. reflexivity. Qed.

Example Level_wraps : klog.Level (2 ^ 32 + 3) = 3%Z.
Proof. reflexivity. Qed.

(** ** Pairs of a layer *)

Section Pairs.

Variable d : value.

(** Induction two entries at a time. *)
Lemma list_pair_ind (P : list value -> Prop) :
  P [] ->
  (forall k, P [k]) ->
  (forall k v rest, P rest -> P (k :: v :: rest)) ->
  forall l, P l.
Proof.
  intros Hnil Hone Hstep.
  assert (H : forall l, P l /\ forall x, P (x :: l)).
  { induction l as [|y l [IH1 IH2]]; split; auto. }
  intros l. apply H.
Qed.

Lemma pairs_with_length l :
  length (pairs_with d l) = (length l + 1) / 2.
Proof.
  induction l as [| k | k v rest IH] using list_pair_ind; try reflexivity.
  cbn [pairs_with length]. rewrite IH.
  replace (S (S (length rest)) + 1) with (length rest + 1 + 1 * 2) by lia.
  rewrite Nat.div_add by lia. lia.
Qed.

(** What the indexed reads of the loops return at pair [p]. *)
Lemma pairs_with_index l p k v :
  pairs_with d l !! p = Some (k, v) ->
  index l (2 * p) = Ok k /\
  (if (2 * p + 1 <? length l)%nat then index l (2 * p + 1) else Ok d) = Ok v.
Proof.
  revert p. induction l as [| k0 | k0 v0 rest IH] using list_pair_ind;
    intros p Hp.
  - destruct p; discriminate.
  - destruct p as [|p]; [|destruct p; discriminate].
    injection Hp as <- <-. split; reflexivity.
  - destruct p as [|p].
    + injection Hp as <- <-. split; reflexivity.
    + cbn [pairs_with] in Hp. apply IH in Hp as [Hk Hv].
      replace (2 * S p) with (S (S (2 * p))) by lia.
      split; [exact Hk|].
      cbn [length].
      replace (S (S (2 * p)) + 1 <? S (S (length rest)))%nat
        with (2 * p + 1 <? length rest)%nat
        by (destruct (Nat.ltb_spec (2 * p + 1) (length rest));
            destruct (Nat.ltb_spec (S (S (2 * p)) + 1) (S (S (length rest))));
            lia || reflexivity).
      exact Hv.
Qed.

Lemma pairs_with_even l :
  Nat.Even (length l) -> pairs_with d l = pairs l.
Proof.
  induction l as [| k | k v rest IH] using list_pair_ind; intros He.
  - reflexivity.
  - destruct He as [m Hm]. cbn in Hm. lia.
  - cbn [pairs pairs_with]. f_equal. apply IH.
    destruct He as [m Hm]. cbn [length] in Hm. exists (m - 1). lia.
Qed.

Lemma pairs_with_app l1 l2 :
  Nat.Even (length l1) ->
  pairs_with d (l1 ++ l2) = pairs_with d l1 ++ pairs_with d l2.
Proof.
  induction l1 as [| k | k v rest IH] using list_pair_ind; intros He.
  - reflexivity.
  - destruct He as [m Hm]. cbn in Hm. lia.
  - cbn [pairs_with app]. f_equal. apply IH.
    destruct He as [m Hm]. cbn [length] in Hm. exists (m - 1). lia.
Qed.

End Pairs.

Lemma flatten_cons k v ps : flatten ((k, v) :: ps) = k :: v :: flatten ps.
Proof. reflexivity. Qed.

Lemma flatten_app ps qs : flatten (ps ++ qs) = flatten ps ++ flatten qs.
Proof. unfold flatten. apply bind_app. Qed.

Lemma flatten_length ps : length (flatten ps) = 2 * length ps.
Proof.
  induction ps as [|[k v] ps IH]; [reflexivity|].
  rewrite flatten_cons. cbn [length]. lia.
Qed.

Lemma pairs_with_flatten d ps : pairs_with d (flatten ps) = ps.
Proof.
  induction ps as [|[k v] ps IH]; [reflexivity|].
  rewrite flatten_cons. cbn [pairs_with]. by rewrite IH.
Qed.

Lemma scan_count_pairs l :
  scan_count (scan_start (length l)) = length (pairs l).
Proof.
  unfold scan_count, scan_start, pairs. rewrite pairs_with_length.
  set (n := length l).
  assert (Hn : n = 2 * (n / 2) + n mod 2) by apply Nat.div_mod_eq.
  assert (Hm : n mod 2 < 2) by (apply Nat.mod_upper_bound; lia).
  assert (Hz : (Z.of_nat n mod 2 = Z.of_nat (n mod 2))%Z)
    by (rewrite Nat2Z.inj_mod; reflexivity).
  rewrite Hz.
  replace ((Z.of_nat n - 2 + Z.of_nat (n mod 2)) / 2 + 1)%Z
    with (Z.of_nat ((n + 1) / 2)).
  { apply Nat2Z.id. }
  rewrite Nat2Z.inj_div. change (Z.of_nat 2) with 2%Z.
  destruct (n mod 2) as [|[|?]] eqn:E; [| |lia].
  - replace (Z.of_nat n - 2 + Z.of_nat 0)%Z
      with (Z.of_nat (n / 2) * 2 + -2)%Z by lia.
    replace (Z.of_nat (n + 1)) with (1 + Z.of_nat (n / 2) * 2)%Z by lia.
    rewrite Z.div_add by lia.
    replace (Z.of_nat (n / 2) * 2 + -2)%Z with ((Z.of_nat (n / 2) - 1) * 2)%Z by lia.
    rewrite Z.div_mul by lia. change (1 / 2)%Z with 0%Z. lia.
  - replace (Z.of_nat n - 2 + Z.of_nat 1)%Z
      with (Z.of_nat (n / 2) * 2)%Z by lia.
    replace (Z.of_nat (n + 1)) with ((Z.of_nat (n / 2) + 1) * 2)%Z by lia.
    rewrite !Z.div_mul by lia. lia.
Qed.

(** The counter of the inner loop starts at the index the source starts
    at, and an empty layer is not scanned. *)
Lemma scan_first_index len :
  (len = 0 -> scan_count (scan_start len) = 0) /\
  (0 < len ->
   Z.of_nat (2 * (scan_count (scan_start len) - 1)) = scan_start len).
Proof.
  unfold scan_count, scan_start. split; intros H.
  - subst len. reflexivity.
  - assert (Hm : (0 <= Z.of_nat len mod 2 < 2)%Z) by (apply Z.mod_pos_bound; lia).
    pose proof (Z.div_mod (Z.of_nat len) 2 ltac:(lia)) as Hd.
    set (q := (Z.of_nat len / 2)%Z) in *. set (r := (Z.of_nat len mod 2)%Z) in *.
    replace (Z.of_nat len - 2 + r)%Z with ((q + r - 1) * 2)%Z by lia.
    rewrite Z.div_mul by lia. lia.
Qed.

(** ** Caller resolver *)

(** C10: the resolver returns the first candidate depth in 1, 2 whose frame
    one level further up is not the autogenerated marker, and 1 when both
    candidates are autogenerated. *)
Theorem framesToCaller_first_candidate (stack : callstack) :
  (forall d, d ∈ [1; 2] ->
     stack (d + 1) <> autogeneratedFrameName ->
     (forall d', d' ∈ [1; 2] -> d' < d -> stack (d' + 1) = autogeneratedFrameName) ->
     framesToCaller stack = d) /\
  ((forall d, d ∈ [1; 2] -> stack (d + 1) = autogeneratedFrameName) ->
     framesToCaller stack = 1).
Proof.
  unfold framesToCaller. cbn [framesToCaller_loop Nat.add].
  split.
  - intros d Hd Hfile Hbefore.
    assert (Hcases : d = 1 \/ d = 2) by set_solver.
    destruct Hcases as [-> | ->].
    + apply String.eqb_neq in Hfile. cbn [Nat.add] in Hfile. by rewrite Hfile.
    + assert (H1 : stack 2 = autogeneratedFrameName).
      { apply (Hbefore 1); [set_solver | lia]. }
      apply String.eqb_eq in H1. rewrite H1. cbn [negb].
      apply String.eqb_neq in Hfile. cbn [Nat.add] in Hfile. by rewrite Hfile.
  - intros Hall.
    assert (H1 : stack 2 = autogeneratedFrameName) by (apply (Hall 1); set_solver).
    assert (H2 : stack 3 = autogeneratedFrameName) by (apply (Hall 2); set_solver).
    apply String.eqb_eq in H1, H2. by rewrite H1, H2.
Qed.

(** ** Deduplication *)

Lemma keep_last_cons seen k v rest :
  keep_last seen ((k, v) :: rest) =
    if decide (k ∈ (keep_last seen rest).1) then keep_last seen rest
    else ({[k]} ∪ (keep_last seen rest).1, (k, v) :: (keep_last seen rest).2).
Proof. cbn [keep_last]. destruct (keep_last seen rest). reflexivity. Qed.

Lemma keep_last_app seen l1 l2 :
  keep_last seen (l1 ++ l2) =
    ((keep_last (keep_last seen l2).1 l1).1,
     (keep_last (keep_last seen l2).1 l1).2 ++ (keep_last seen l2).2).
Proof.
  induction l1 as [|[k v] l1 IH].
  - cbn. by destruct (keep_last seen l2).
  - rewrite <- app_comm_cons, !keep_last_cons, IH. cbn [fst snd].
    case_decide; reflexivity.
Qed.

Lemma keep_last_seen seen ps :
  (keep_last seen ps).1 = list_to_set ps.*1 ∪ seen.
Proof.
  induction ps as [|[k v] ps IH].
  - cbn. set_solver.
  - rewrite keep_last_cons. case_decide as Hk; cbn [fst fmap list_fmap list_to_set].
    + rewrite IH in Hk |- *. set_solver.
    + rewrite IH. set_solver.
Qed.

Lemma keep_last_sublist seen ps : (keep_last seen ps).2 `sublist_of` ps.
Proof.
  induction ps as [|[k v] ps IH]; [constructor|].
  rewrite keep_last_cons. case_decide; cbn [snd]; by constructor.
Qed.

(** No kept key was in [seen], and no key is kept twice. *)
Lemma keep_last_not_seen seen ps k :
  k ∈ (keep_last seen ps).2.*1 -> k ∉ seen.
Proof.
  induction ps as [|[k0 v0] ps IH]; [cbn; set_solver|].
  rewrite keep_last_cons. case_decide as Hk; cbn [snd]; [exact IH|].
  rewrite fmap_cons. cbn [fst]. intros [->|Hin]%elem_of_cons; [|by apply IH].
  rewrite keep_last_seen in Hk. set_solver.
Qed.

Lemma keep_last_NoDup seen ps : NoDup (keep_last seen ps).2.*1.
Proof.
  induction ps as [|[k v] ps IH]; [constructor|].
  rewrite keep_last_cons. case_decide as Hk; cbn [snd]; [exact IH|].
  rewrite fmap_cons. constructor; [|exact IH]. cbn [fst].
  intros Hin. apply Hk. rewrite keep_last_seen.
  apply elem_of_union_l, elem_of_list_to_set.
  eapply elem_of_sublist; [exact Hin|].
  apply fmap_sublist, keep_last_sublist.
Qed.

(** A pair whose key is neither in [seen] nor further right is kept. *)
Lemma keep_last_keeps seen l1 k v l2 :
  k ∉ seen -> k ∉ l2.*1 ->
  (k, v) ∈ (keep_last seen (l1 ++ (k, v) :: l2)).2.
Proof.
  intros Hseen Hright. rewrite keep_last_app. cbn [snd].
  apply elem_of_app. right.
  rewrite keep_last_cons. rewrite decide_False.
  - cbn [snd]. apply elem_of_cons. by left.
  - rewrite keep_last_seen. set_solver.
Qed.

Lemma bind_Ok {A B} (a : A) (f : A -> outcome B) : (Ok a ≫= f) = f a.
Proof. reflexivity. Qed.

Lemma index_lookup {A} (a : list A) i x : a !! i = Some x -> index a i = Ok x.
Proof. unfold index. by intros ->. Qed.

Lemma assign_lt {A} (a : list A) i x :
  i < length a -> assign a i x = Ok (<[i := x]> a).
Proof.
  intros Hi. unfold assign.
  by destruct (Nat.ltb_spec i (length a)); [|lia].
Qed.

Lemma trim_layer_S kvList i n seenKeys outs :
  trim_layer kvList i (S n) seenKeys outs =
    (k ← index kvList (2 * n);
     ok ← map_has_key seenKeys k;
     if (ok : bool) then trim_layer kvList i n seenKeys outs
     else
       v ← (if (2 * n + 1 <? length kvList)%nat then index kvList (2 * n + 1)
            else Ok Nil);
       cur ← index outs i;
       outs' ← assign outs i (k :: v :: cur);
       trim_layer kvList i n ({[k]} ∪ seenKeys) outs').
Proof. reflexivity. Qed.

(** The inner loop run for the first [n] pairs of a layer with hashable
    keys: it never panics and prepends the kept pairs to [outs[i]]. *)
Lemma trim_layer_spec kvList i n : forall seen outs cur,
  n <= length (pairs kvList) ->
  forallb hashable (take n (keys kvList)) = true ->
  outs !! i = Some cur ->
  trim_layer kvList i n seen outs =
    Ok ((keep_last seen (take n (pairs kvList))).1,
        <[i := flatten (keep_last seen (take n (pairs kvList))).2 ++ cur]> outs).
Proof.
  induction n as [|n IH]; intros seen outs cur Hn Hhash Hcur.
  - cbn. by rewrite list_insert_id.
  - destruct (pairs kvList !! n) as [[k v]|] eqn:E;
      [|apply lookup_ge_None in E; lia].
    destruct (pairs_with_index Nil kvList n k v E) as [Hk Hv].
    assert (Hkey : keys kvList !! n = Some k).
    { unfold keys. by rewrite list_lookup_fmap, E. }
    assert (Hhk : hashable k = true).
    { rewrite (take_S_r _ _ _ Hkey), forallb_app in Hhash.
      apply andb_prop in Hhash as [_ Hhash]. cbn in Hhash.
      by rewrite andb_true_r in Hhash. }
    assert (Hprev : forallb hashable (take n (keys kvList)) = true).
    { rewrite (take_S_r _ _ _ Hkey), forallb_app in Hhash.
      by apply andb_prop in Hhash as [Hhash _]. }
    rewrite trim_layer_S, Hk, bind_Ok.
    unfold map_has_key. rewrite Hhk, bind_Ok.
    rewrite (take_S_r _ _ _ E), keep_last_app.
    cbn [keep_last]. case_bool_decide as Hseen.
    + rewrite decide_True by done. cbn [fst snd].
      rewrite app_nil_r. apply IH; [lia|done|done].
    + rewrite decide_False by done. cbn [fst snd].
      rewrite Hv, bind_Ok, (index_lookup _ _ _ Hcur), bind_Ok.
      rewrite assign_lt by (by eapply lookup_lt_Some).
      rewrite bind_Ok.
      rewrite (IH _ _ (k :: v :: cur)); [|lia|done|].
      * rewrite list_insert_insert_eq, flatten_app.
        by rewrite <- app_assoc.
      * apply list_lookup_insert_eq. by eapply lookup_lt_Some.
Qed.

Lemma dedup_layers_snoc seen ls l :
  dedup_layers seen (ls ++ [l]) =
    ((dedup_layers (keep_last seen (pairs l)).1 ls).1,
     (dedup_layers (keep_last seen (pairs l)).1 ls).2
       ++ [flatten (keep_last seen (pairs l)).2]).
Proof.
  induction ls as [|l0 ls IH].
  - cbn. by destruct (keep_last seen (pairs l)).
  - rewrite <- app_comm_cons. cbn [dedup_layers]. rewrite IH.
    destruct (dedup_layers (keep_last seen (pairs l)).1 ls) as [s os].
    cbn [fst snd]. by destruct (keep_last s (pairs l0)).
Qed.

Lemma trim_layers_S kvLists n seenKeys outs :
  trim_layers kvLists (S n) seenKeys outs =
    (outs1 ← assign outs n [];
     kvList ← index kvLists n;
     r ← trim_layer kvList n (scan_count (scan_start (length kvList))) seenKeys outs1;
     trim_layers kvLists n r.1 r.2).
Proof.
  cbn [trim_layers]. destruct (assign outs n []); [|reflexivity].
  cbn. destruct (index kvLists n); [|reflexivity].
  cbn. destruct (trim_layer _ _ _ _ _) as [[? ?]|]; reflexivity.
Qed.

(** The outer loop run for the first [n] layers. *)
Lemma trim_layers_spec kvLists n : forall seen outs,
  n <= length kvLists ->
  length outs = length kvLists ->
  layers_hashable (take n kvLists) = true ->
  trim_layers kvLists n seen outs =
    Ok ((dedup_layers seen (take n kvLists)).2 ++ drop n outs).
Proof.
  induction n as [|n IH]; intros seen outs Hn Hlen Hhash.
  - reflexivity.
  - destruct (kvLists !! n) as [l|] eqn:E;
      [|apply lookup_ge_None in E; lia].
    unfold layers_hashable in Hhash.
    rewrite (take_S_r _ _ _ E), forallb_app in Hhash.
    apply andb_prop in Hhash as [Hprev Hl]. cbn in Hl.
    rewrite andb_true_r in Hl.
    rewrite trim_layers_S, assign_lt by lia. rewrite bind_Ok.
    rewrite (index_lookup _ _ _ E), bind_Ok.
    rewrite scan_count_pairs.
    rewrite (trim_layer_spec l n _ seen _ []); [|lia| |].
    + rewrite bind_Ok. cbn [fst snd].
      rewrite firstn_all, app_nil_r, list_insert_insert_eq.
      rewrite IH; [|lia|by rewrite length_insert|done].
      rewrite (take_S_r _ _ _ E), dedup_layers_snoc. cbn [snd].
      rewrite <- app_assoc. do 2 f_equal.
      rewrite drop_insert_ge by lia. rewrite Nat.sub_diag.
      destruct (drop n outs) as [|o rest] eqn:Ed.
      * apply (f_equal length) in Ed. rewrite length_drop in Ed.
        cbn in Ed. lia.
      * cbn [insert list_insert]. f_equal.
        replace (S n) with (n + 1) by lia.
        by rewrite <- drop_drop, Ed.
    + unfold keys. rewrite firstn_all2; [exact Hl|].
      rewrite length_fmap. lia.
    + apply list_lookup_insert_eq. lia.
Qed.

(** On layers with hashable keys [trimDuplicates] returns, and what it
    returns is [dedup_layers]. *)
Lemma trimDuplicates_spec kvLists :
  layers_hashable kvLists = true ->
  trimDuplicates kvLists = Ok (dedup_layers ∅ kvLists).2.
Proof.
  intros Hhash. unfold trimDuplicates.
  rewrite trim_layers_spec; [|lia|by rewrite length_replicate|].
  - rewrite firstn_all, drop_ge by (rewrite length_replicate; lia).
    by rewrite app_nil_r.
  - by rewrite firstn_all.
Qed.

Lemma dedup_layers_cons seen l ls :
  dedup_layers seen (l :: ls) =
    ((keep_last (dedup_layers seen ls).1 (pairs l)).1,
     flatten (keep_last (dedup_layers seen ls).1 (pairs l)).2
       :: (dedup_layers seen ls).2).
Proof.
  cbn [dedup_layers]. destruct (dedup_layers seen ls) as [s os].
  cbn [fst snd]. by destruct (keep_last s (pairs l)).
Qed.

Lemma dedup_layers_length seen ls :
  length (dedup_layers seen ls).2 = length ls.
Proof.
  induction ls as [|l ls IH]; [reflexivity|].
  rewrite dedup_layers_cons. cbn. by rewrite IH.
Qed.

Lemma dedup_layers_seen seen ls :
  (dedup_layers seen ls).1 = list_to_set (ls ≫= keys) ∪ seen.
Proof.
  induction ls as [|l ls IH].
  - cbn. set_solver.
  - rewrite dedup_layers_cons. cbn [fst].
    rewrite keep_last_seen, IH, bind_cons, list_to_set_app_L.
    unfold keys. set_solver.
Qed.

(** The layer at [i] is deduplicated against the keys of the layers after
    it. *)
Lemma dedup_layers_lookup seen ls i li :
  ls !! i = Some li ->
  (dedup_layers seen ls).2 !! i =
    Some (flatten (keep_last (list_to_set (drop (S i) ls ≫= keys) ∪ seen)
                             (pairs li)).2).
Proof.
  revert i. induction ls as [|l ls IH]; intros i Hi; [done|].
  rewrite dedup_layers_cons. cbn [snd]. destruct i as [|i].
  - injection Hi as ->. cbn [lookup list_lookup drop].
    by rewrite dedup_layers_seen.
  - cbn [lookup list_lookup drop]. by apply IH.
Qed.

(** C1 (amended to layers with hashable keys): the result has one layer per
    input layer; the pairs of a result layer are a subsequence of the pairs
    of the input layer; no key of a later input layer remains in an earlier
    result layer; a pair whose key occurs nowhere else stays in its layer;
    and the two-layer example of the documentation evaluates as stated. *)
Theorem trimDuplicates_layers :
  (forall kvLists : list (list value),
     layers_hashable kvLists = true ->
     exists outs,
       trimDuplicates kvLists = Ok outs /\
       length outs = length kvLists /\
       forall i li, kvLists !! i = Some li ->
         exists oi,
           outs !! i = Some oi /\
           oi = flatten (pairs oi) /\
           pairs oi `sublist_of` pairs li /\
           (forall j lj k, i < j -> kvLists !! j = Some lj ->
              k ∈ keys lj -> k ∉ keys oi) /\
           (forall p k v, pairs li !! p = Some (k, v) ->
              (forall j lj q, kvLists !! j = Some lj ->
                 keys lj !! q = Some k -> j = i /\ q = p) ->
              (k, v) ∈ pairs oi)) /\
  trimDuplicates [[Str "a"; Int 1; Str "b"; Int 2]; [Str "b"; Int 3]]
    = Ok [[Str "a"; Int 1]; [Str "b"; Int 3]].
Proof.
  split; [|vm_compute; reflexivity].
  intros kvLists Hhash. exists (dedup_layers ∅ kvLists).2.
  split; [by apply trimDuplicates_spec|].
  split; [apply dedup_layers_length|].
  intros i li Hi. eexists. split; [by apply dedup_layers_lookup|].
  set (later := list_to_set (drop (S i) kvLists ≫= keys) ∪ (∅ : gset value)).
  assert (Hpf : forall ps, pairs (flatten ps) = ps)
    by (intros ps; apply pairs_with_flatten).
  rewrite Hpf.
  split; [reflexivity|]. split; [apply keep_last_sublist|]. split.
  - intros j lj k Hij Hj Hk Hin. unfold keys in Hin. rewrite Hpf in Hin.
    apply keep_last_not_seen in Hin. apply Hin.
    apply elem_of_union_l, elem_of_list_to_set, list_elem_of_bind.
    exists lj. split; [exact Hk|].
    apply list_elem_of_lookup. exists (j - S i).
    rewrite lookup_drop. by replace (S i + (j - S i)) with j by lia.
  - intros p k v Hp Huniq.
    destruct (list_elem_of_split_length _ _ _ Hp) as (l1 & l2 & Heq & Hlen).
    rewrite Heq. apply keep_last_keeps.
    + intros Hin. apply elem_of_union in Hin as [Hin|Hin]; [|set_solver].
      apply elem_of_list_to_set, list_elem_of_bind in Hin as (lj & Hk & Hlj).
      apply list_elem_of_lookup in Hlj as [j Hj]. rewrite lookup_drop in Hj.
      apply list_elem_of_lookup in Hk as [q Hq].
      destruct (Huniq _ _ _ Hj Hq). lia.
    + intros Hin. apply list_elem_of_lookup in Hin as [q Hq].
      assert (Hq' : keys li !! (S p + q) = Some k).
      { unfold keys. rewrite Heq, fmap_app, fmap_cons.
        rewrite lookup_app_r by (rewrite length_fmap; lia).
        rewrite length_fmap, <- Hlen.
        by replace (S p + q - p) with (S q) by lia. }
      destruct (Huniq _ _ _ Hi Hq'). lia.
Qed.

(** Two layers with hashable keys, a repeated key and lone final keys. *)
Lemma trimDuplicates_layers_witness :
  layers_hashable [[Str "a"; Int 1; Str "a"; Int 2; Str "c"]; [Str "b"]] = true /\
  exists outs,
    trimDuplicates [[Str "a"; Int 1; Str "a"; Int 2; Str "c"]; [Str "b"]] = Ok outs /\
    length outs = 2 /\
    exists o0, outs !! 0 = Some o0 /\ (Str "c", Nil) ∈ pairs o0.
Proof.
  split; [reflexivity|].
  destruct (proj1 trimDuplicates_layers
              [[Str "a"; Int 1; Str "a"; Int 2; Str "c"]; [Str "b"]])
    as (outs & Hout & Hlen & Hlayers).
  - reflexivity.
  - exists outs. split; [exact Hout|]. split; [exact Hlen|].
    destruct (Hlayers 0 _ eq_refl) as (o0 & Ho0 & _ & _ & _ & Huniq).
    exists o0. split; [exact Ho0|].
    apply (Huniq 2 (Str "c") Nil eq_refl).
    intros j lj q Hj Hq.
    destruct j as [|[|j]]; [| |discriminate Hj].
    + injection Hj as <-.
      destruct q as [|[|[|q]]]; [discriminate Hq..|by split|discriminate Hq].
    + injection Hj as <-.
      destruct q as [|q]; discriminate Hq.
Defined.

(** C1 as stated fails on a layer whose key is a slice: the map access
    panics and no layers are returned. *)
Lemma trimDuplicates_unhashable_key :
  ~ exists outs, trimDuplicates [[IntSlice [1%Z]; Int 1]] = Ok outs.
Proof. intros [outs H]. vm_compute in H. discriminate. Qed.

(** ** Value formatter *)

Lemma string_app_assoc (s t u : string) : (s +:+ t) +:+ u = s +:+ t +:+ u.
Proof.
  induction s as [|a s IH]; [reflexivity|].
  change (String a ((s +:+ t) +:+ u) = String a (s +:+ t +:+ u)).
  by rewrite IH.
Qed.

Lemma string_app_nil_r (s : string) : s +:+ EmptyString = s.
Proof.
  induction s as [|a s IH]; [reflexivity|].
  change (String a (s +:+ EmptyString) = String a s). by rewrite IH.
Qed.

Lemma join_snoc sep (l : list string) x :
  Fmt.join sep (l ++ [x]) =
    match l with
    | [] => x
    | _ => Fmt.join sep l +:+ sep +:+ x
    end.
Proof.
  induction l as [|y l IH]; [reflexivity|].
  destruct l as [|z l]; [reflexivity|].
  change (y +:+ sep +:+ Fmt.join sep ((z :: l) ++ [x])
          = (y +:+ sep +:+ Fmt.join sep (z :: l)) +:+ sep +:+ x).
  by rewrite IH, !string_app_assoc.
Qed.

Lemma kvListFormat_loop_S kvs n i b :
  kvListFormat_loop kvs (S n) i b =
    (k ← index kvs i;
     v ← (if (i + 1 <? length kvs)%nat then index kvs (i + 1)
          else Ok (Str missingValue));
     kvListFormat_loop kvs n (i + 2)
       ((if (0 <? i)%nat then b +:+ " " else b) +:+ format_pair k v)).
Proof. reflexivity. Qed.

(** The loop started at pair [j] with the rendering of the pairs before it
    in the buffer. *)
Lemma kvListFormat_loop_spec kvs n : forall j,
  j + n = length (entries kvs) ->
  kvListFormat_loop kvs n (2 * j)
    (Fmt.join " " (take j (map (fun kv => format_pair kv.1 kv.2) (entries kvs))))
  = Ok (render kvs).
Proof.
  induction n as [|n IH]; intros j Hj.
  - cbn [kvListFormat_loop]. unfold render.
    rewrite firstn_all2; [reflexivity|]. rewrite length_map. lia.
  - destruct (entries kvs !! j) as [[k v]|] eqn:E;
      [|apply lookup_ge_None in E; lia].
    destruct (pairs_with_index _ kvs j k v E) as [Hk Hv].
    rewrite kvListFormat_loop_S, Hk, bind_Ok, Hv, bind_Ok.
    replace (2 * j + 2) with (2 * S j) by lia.
    rewrite <- (IH (S j)) by lia. f_equal.
    set (R := map _ (entries kvs)).
    assert (HR : R !! j = Some (format_pair k v)).
    { subst R. change (((fun kv => format_pair kv.1 kv.2) <$> entries kvs) !! j
                       = Some (format_pair k v)).
      by rewrite list_lookup_fmap, E. }
    rewrite (take_S_r _ _ _ HR), join_snoc.
    destruct j as [|j]; [reflexivity|].
    destruct (take (S j) R) eqn:Et.
    + apply (f_equal length) in Et. rewrite length_take in Et.
      apply lookup_lt_Some in HR. cbn [length] in Et. lia.
    + replace (0 <? 2 * S j)%nat with true
        by (symmetry; apply Nat.ltb_lt; lia).
      by rewrite string_app_assoc.
Qed.

(** [kvListFormat] never panics and returns the entries rendered one by one
    and joined by single spaces. *)
Lemma kvListFormat_render kvs : kvListFormat kvs = Ok (render kvs).
Proof.
  unfold kvListFormat.
  rewrite <- (kvListFormat_loop_spec kvs ((length kvs + 1) / 2) 0).
  - reflexivity.
  - unfold entries. by rewrite pairs_with_length.
Qed.

Lemma render_even kvs :
  Nat.Even (length kvs) ->
  render kvs = Fmt.join " " (map (fun kv => format_pair kv.1 kv.2) (pairs kvs)).
Proof. intros He. unfold render, entries. by rewrite pairs_with_even. Qed.

(** C5 (amended in its last example): the formatter returns the entries
    joined by single spaces with nothing before the first; an entry is the
    key, [=], and the value quoted when it is a string, an error or a
    Stringer, in [%+v] form otherwise; the layer ["k","v"] gives [k="v"];
    the value of a lone final key is the string [(MISSING)], which is
    quoted like every string. *)
Theorem kvListFormat_entries :
  (forall kvs, kvListFormat kvs =
     Ok (Fmt.join " " (map (fun kv => format_pair kv.1 kv.2) (entries kvs)))) /\
  (forall k s, format_pair k (Str s) = Fmt.verb_s k +:+ "=" +:+ Fmt.Quote s) /\
  (forall k m, format_pair k (Err m) = Fmt.verb_s k +:+ "=" +:+ Fmt.Quote m) /\
  (forall k r, format_pair k (Stringer r) = Fmt.verb_s k +:+ "=" +:+ Fmt.Quote r) /\
  (forall k v, match v with Str _ | Err _ | Stringer _ => False | _ => True end ->
     format_pair k v = Fmt.verb_s k +:+ "=" +:+ Fmt.verb_plus_v v) /\
  kvListFormat [Str "k"; Str "v"]
    = Ok ("k=" +:+ Fmt.dquote +:+ "v" +:+ Fmt.dquote) /\
  kvListFormat [Str "k"]
    = Ok ("k=" +:+ Fmt.dquote +:+ "(MISSING)" +:+ Fmt.dquote).
Proof.
  split; [exact kvListFormat_render|].
  repeat split; try reflexivity.
  intros k v Hv. by destruct v.
Qed.

(** An integer and nil are written in the generic form. *)
Lemma kvListFormat_entries_witness :
  format_pair (Str "n") (Int 7) = "n=7" /\
  format_pair (Str "n") Nil = "n=<nil>".
Proof.
  split.
  - exact (proj1 (proj2 (proj2 (proj2 (proj2 kvListFormat_entries))))
             (Str "n") (Int 7) I).
  - exact (proj1 (proj2 (proj2 (proj2 (proj2 kvListFormat_entries))))
             (Str "n") Nil I).
Defined.

(** C5 as stated fails in its odd-length example: the placeholder is
    written with quotes. *)
Lemma kvListFormat_missing_is_quoted :
  kvListFormat [Str "k"] <> Ok "k=(MISSING)".
Proof. vm_compute. discriminate. Qed.

(** ** Slices and logger derivation *)

Lemma load_weaken (h h' : heap) s :
  h ⊆ h' -> valid_slice h s -> Go.load h' s = Go.load h s.
Proof.
  intros Hsub Hv. destruct s as [|a n c]; [done|].
  destruct Hv as (arr & Ha & _). cbn.
  by rewrite Ha, (lookup_weaken _ _ _ _ Ha Hsub).
Qed.

Lemma valid_slice_weaken (h h' : heap) s :
  h ⊆ h' -> valid_slice h s -> valid_slice h' s.
Proof.
  intros Hsub Hv. destruct s as [|a n c]; [done|].
  destruct Hv as (arr & Ha & Hlen). exists arr.
  split; [by eapply lookup_weaken|done].
Qed.

Lemma load_length (h : heap) s :
  valid_slice h s -> length (Go.load h s) = Go.len s.
Proof.
  destruct s as [|a n c]; [done|]. intros (arr & Ha & Hlen & Hn).
  cbn. rewrite Ha. cbn. rewrite length_take. lia.
Qed.

Lemma fresh_address (h : heap) : h !! fresh (dom h) = None.
Proof. apply not_elem_of_dom, is_fresh. Qed.

(** [copySlice] allocates one array, holding the elements of its argument,
    and touches nothing else. *)
Lemma copySlice_spec in_ (h : heap) :
  valid_slice h in_ ->
  copySlice in_ h =
    (Go.Slice (fresh (dom h)) (Go.len in_) (Go.len in_),
     <[fresh (dom h) := Go.load h in_]> h).
Proof.
  intros Hv. unfold copySlice, Go.make, Go.copy.
  set (a := fresh (dom h)). set (n := Go.len in_).
  assert (Ha : h !! a = None) by apply fresh_address.
  rewrite lookup_insert_eq. cbn [Go.len]. rewrite Nat.min_l by lia.
  rewrite (load_weaken h) by (by apply insert_subseteq || done).
  rewrite take_ge by (rewrite load_length; subst n; done || lia).
  rewrite drop_ge by (by rewrite length_replicate).
  by rewrite app_nil_r, insert_insert_eq.
Qed.

Lemma clone_spec l (h : heap) :
  wf h l ->
  clone l h =
    ({| level := level l; prefix := prefix l;
        values := Go.Slice (fresh (dom h)) (Go.len (values l)) (Go.len (values l)) |},
     <[fresh (dom h) := Go.load h (values l)]> h).
Proof. intros Hv. unfold clone. by rewrite copySlice_spec. Qed.

(** [append] to a slice that fills a freshly allocated array. *)
Lemma append_fresh_spec spare (h : heap) a L xs :
  h !! a = None ->
  let r := Go.append spare (Go.Slice a (length L) (length L)) xs (<[a := L]> h) in
  h ⊆ r.2 /\ valid_slice r.2 r.1 /\ fresh_in h r.1 /\ Go.load r.2 r.1 = L ++ xs.
Proof.
  intros Ha. unfold Go.append. cbn [Go.len Go.cap].
  destruct (Nat.leb_spec (length L + length xs) (length L)) as [Hle|Hgt].
  - assert (xs = []) as -> by (destruct xs; [done|cbn in Hle; lia]).
    rewrite lookup_insert_eq. cbn [length app fst snd].
    rewrite Nat.add_0_r, take_drop, insert_insert_eq.
    split; [by apply insert_subseteq|].
    split; [exists L; by rewrite lookup_insert_eq|].
    split; [exact Ha|].
    cbn. rewrite lookup_insert_eq. cbn. by rewrite firstn_all, app_nil_r.
  - set (h1 := <[a := L]> h). set (a' := fresh (dom h1)).
    assert (Ha' : h1 !! a' = None) by apply fresh_address.
    assert (Hsub : h ⊆ h1) by (by apply insert_subseteq).
    assert (Hload : Go.load h1 (Go.Slice a (length L) (length L)) = L).
    { cbn. subst h1. rewrite lookup_insert_eq. cbn. apply firstn_all. }
    cbv zeta. cbn [fst snd]. rewrite Hload.
    split; [etrans; [exact Hsub|by apply insert_subseteq]|].
    split.
    { eexists. rewrite lookup_insert_eq. split; [reflexivity|].
      rewrite !length_app, length_replicate. lia. }
    split.
    { cbn. destruct (h !! a') eqn:E; [|done].
      by rewrite (lookup_weaken _ _ _ _ E Hsub) in Ha'. }
    cbn. rewrite lookup_insert_eq. cbn.
    rewrite app_assoc. apply take_app_length'. by rewrite length_app.
Qed.

(** Every derivation allocates the array of the new logger and leaves the
    arrays that exist untouched. *)
Lemma mutate_spec spare l m (h : heap) :
  wf h l ->
  let r := mutate spare l m h in
  h ⊆ r.2 /\ wf r.2 r.1 /\ fresh_in h (values r.1) /\
  Go.load r.2 (values r.1) = Go.load h (values l) ++ added m.
Proof.
  intros Hwf.
  assert (Ha : h !! fresh (dom h) = None) by apply fresh_address.
  assert (Hlen : length (Go.load h (values l)) = Go.len (values l))
    by (by apply load_length).
  assert (Hclone : forall lvl pre,
    let l' := {| level := lvl; prefix := pre;
                 values := Go.Slice (fresh (dom h)) (Go.len (values l))
                             (Go.len (values l)) |} in
    let h' := <[fresh (dom h) := Go.load h (values l)]> h in
    h ⊆ h' /\ wf h' l' /\ fresh_in h (values l') /\
    Go.load h' (values l') = Go.load h (values l) ++ []).
  { intros lvl pre. cbv zeta. unfold wf. cbn [values].
    split; [by apply insert_subseteq|].
    split; [eexists; rewrite lookup_insert_eq; split; [reflexivity|lia]|].
    split; [exact Ha|].
    cbn. rewrite lookup_insert_eq. cbn.
    by rewrite app_nil_r, <- Hlen, firstn_all. }
  destruct m as [lvl|name|kvList]; cbn [mutate added].
  - unfold V. rewrite clone_spec by done. apply Hclone.
  - unfold WithName. rewrite clone_spec by done. cbn [level prefix values].
    destruct (0 <? String.length (prefix l))%nat; apply Hclone.
  - unfold WithValues. rewrite clone_spec by done. cbn [level prefix values].
    rewrite <- Hlen.
    pose proof (append_fresh_spec spare h _ (Go.load h (values l)) kvList Ha) as Happ.
    cbv zeta in Happ.
    destruct (Go.append _ _ _ _) as [vs h'']. exact Happ.
Qed.

Lemma derive_spec spare ms : forall l (h : heap),
  wf h l ->
  h ⊆ (derive spare l ms h).2 /\ wf (derive spare l ms h).2 (derive spare l ms h).1.
Proof.
  induction ms as [|m ms IH]; intros l h Hwf; [done|].
  cbn [derive].
  destruct (mutate_spec spare l m h Hwf) as (Hsub & Hwf' & _).
  destruct (mutate spare l m h) as [l' h']. cbn [fst snd] in *.
  destruct (IH l' h' Hwf') as [Hsub' Hwf''].
  split; [by etrans|done].
Qed.

(** [Info] reads the heap only through the values of its logger. *)
Lemma Info_heap l msg kvList stack (h h' : heap) s :
  Go.load h' (values l) = Go.load h (values l) ->
  Info l msg kvList stack h' s = Info l msg kvList stack h s.
Proof. intros Heq. unfold Info. by rewrite Heq. Qed.

(** C8: a logger derived by [V], [WithName] or [WithValues] has its values
    in an array that did not exist before, holding a copy of the parent's
    values (followed by the added ones); every logger that existed reads the
    same values afterwards; and however a child is derived further, the
    parent and every logger alive at that time keep their values, so a call
    on the parent writes what it wrote before the child was made. *)
Theorem derived_loggers_independent spare (h : heap) (parent : klogger) :
  wf h parent ->
  (forall m,
     let r := mutate spare parent m h in
     fresh_in h (values r.1) /\
     wf r.2 r.1 /\
     Go.load r.2 (values r.1) = Go.load h (values parent) ++ added m /\
     forall other, wf h other ->
       Go.load r.2 (values other) = Go.load h (values other)) /\
  (forall kvList ms,
     let c := WithValues spare parent kvList h in
     let r := derive spare c.1 ms c.2 in
     (forall other, wf c.2 other ->
        Go.load r.2 (values other) = Go.load c.2 (values other)) /\
     Go.load r.2 (values parent) = Go.load h (values parent) /\
     forall msg kvs stack s,
       Info parent msg kvs stack r.2 s = Info parent msg kvs stack h s).
Proof.
  intros Hwf. split.
  - intros m r. destruct (mutate_spec spare parent m h Hwf) as (Hsub & Hwf' & Hfresh & Hload).
    repeat split; try done.
    intros other Hother. by apply load_weaken.
  - intros kvList ms c r.
    destruct (mutate_spec spare parent (MutWithValues kvList) h Hwf)
      as (Hsub & Hwf' & _).
    change (mutate spare parent (MutWithValues kvList) h) with c in Hsub, Hwf'.
    destruct (derive_spec spare ms c.1 c.2 Hwf') as [Hsub' _].
    fold r in Hsub'.
    assert (Hparent : Go.load r.2 (values parent) = Go.load h (values parent)).
    { apply load_weaken; [by etrans|done]. }
    split; [|split; [exact Hparent|]].
    + intros other Hother. by apply load_weaken.
    + intros msg kvs stack s. by apply Info_heap.
Qed.

(** A parent whose array has room for two more values, and two children
    made from it one after the other: each child reads its own pair after
    the parent's values, the first child is not changed by the second, and
    the parent reads its two values throughout. *)
Lemma derived_loggers_independent_witness :
  wf spare_heap spare_parent /\
  let c1 := WithValues double_spare spare_parent [Str "x"; Int 1] spare_heap in
  let c2 := WithValues double_spare spare_parent [Str "y"; Int 2] c1.2 in
  wf c1.2 spare_parent /\
  Go.load c2.2 (values c1.1) = [Str "p"; Int 0; Str "x"; Int 1] /\
  Go.load c2.2 (values c2.1) = [Str "p"; Int 0; Str "y"; Int 2] /\
  Go.load c2.2 (values spare_parent) = [Str "p"; Int 0].
Proof.
  assert (Hwf : wf spare_heap spare_parent).
  { exists [Str "p"; Int 0; Nil; Nil].
    split; [vm_compute; reflexivity|]. split; [reflexivity|]. cbn. lia. }
  split; [exact Hwf|]. cbv zeta.
  assert (Hwf1 : wf (WithValues double_spare spare_parent [Str "x"; Int 1]
                       spare_heap).2 spare_parent).
  { exists [Str "p"; Int 0; Nil; Nil].
    split; [vm_compute; reflexivity|]. split; [reflexivity|]. cbn. lia. }
  split; [exact Hwf1|].
  destruct (derived_loggers_independent double_spare spare_heap spare_parent Hwf)
    as [Hm1 _].
  destruct (Hm1 (MutWithValues [Str "x"; Int 1])) as (_ & Hwfc1 & Hload1 & _).
  destruct (derived_loggers_independent double_spare _ spare_parent Hwf1)
    as [Hm2 _].
  destruct (Hm2 (MutWithValues [Str "y"; Int 2])) as (_ & _ & Hload2 & Hother2).
  split; [|split].
  - etrans; [exact (Hother2 _ Hwfc1)|]. etrans; [exact Hload1|].
    vm_compute. reflexivity.
  - etrans; [exact Hload2|]. vm_compute. reflexivity.
  - etrans; [exact (Hother2 spare_parent Hwf1)|]. vm_compute. reflexivity.
Defined.

(** ** Names *)

Lemma length_zero_empty (s : string) : String.length s = 0 -> s = EmptyString.
Proof. by destruct s. Qed.

Lemma WithName_fields l name (h : heap) :
  prefix (WithName l name h).1 =
    (if String.eqb (prefix l) EmptyString then name
     else prefix l +:+ "/" +:+ name) /\
  level (WithName l name h).1 = level l.
Proof.
  destruct l as [lvl pre vs]. unfold WithName, clone. cbn [level prefix values].
  destruct (copySlice vs h) as [vs' h'].
  destruct pre as [|a p];
    cbn [String.length Nat.ltb Nat.leb String.eqb level prefix values fst].
  - done.
  - by rewrite string_app_assoc.
Qed.

(** C9: [WithName] makes the name the prefix when the prefix is empty and
    appends [/] and the name otherwise, whatever the name contains; two
    names from the root give ["a/b"]; the root logger has level 0, an empty
    prefix and no values. *)
Theorem WithName_prefix :
  (forall l name (h : heap),
     prefix (WithName l name h).1 =
       if String.eqb (prefix l) EmptyString then name
       else prefix l +:+ "/" +:+ name) /\
  (forall h : heap,
     let a := WithName New "a" h in
     prefix (WithName a.1 "b" a.2).1 = "a/b" /\
     prefix (WithName a.1 "b/c" a.2).1 = "a/b/c") /\
  level New = 0%Z /\ prefix New = EmptyString /\
  (forall h : heap, Go.load h (values New) = []).
Proof.
  split; [intros l name h; apply WithName_fields|].
  split; [|done].
  intros h a. subst a.
  destruct (WithName_fields New "a" h) as [Ha _].
  split; rewrite (proj1 (WithName_fields _ _ _)), Ha; reflexivity.
Qed.

(** ** Assembling the message *)

Lemma interleave_snoc p ps q :
  interleave ((p :: ps) ++ [q]) = interleave (p :: ps) ++ [Str " "; Str q].
Proof.
  unfold interleave. rewrite <- app_comm_cons, bind_app. reflexivity.
Qed.

Lemma concatenate_step_interleave ps piece :
  concatenate_step (interleave ps) piece =
    interleave (ps ++ if nonempty piece then [piece] else []).
Proof.
  unfold concatenate_step, nonempty.
  destruct (String.eqb piece EmptyString); cbn [negb].
  - by rewrite app_nil_r.
  - destruct ps as [|p ps]; [reflexivity|].
    rewrite interleave_snoc. cbn [interleave].
    by rewrite <- app_assoc.
Qed.

Lemma fold_concatenate_step pieces : forall ps,
  fold_left concatenate_step pieces (interleave ps) =
    interleave (ps ++ filter (fun p => nonempty p = true) pieces).
Proof.
  induction pieces as [|piece pieces IH]; intros ps.
  - cbn. by rewrite app_nil_r.
  - cbn [fold_left]. rewrite concatenate_step_interleave, IH, <- app_assoc.
    do 2 f_equal. destruct (nonempty piece) eqn:E.
    + by rewrite filter_cons_True.
    + rewrite filter_cons_False; [done|]. by rewrite E.
Qed.

Lemma Sprint_interleave_tail rest p :
  Fmt.join " " (p :: rest) =
    p +:+ Fmt.Sprint_from false true (rest ≫= fun q => [Str " "; Str q]).
Proof.
  revert p. induction rest as [|q rest IH]; intros p.
  - cbn. by rewrite string_app_nil_r.
  - change (Fmt.join " " (p :: q :: rest)) with (p +:+ " " +:+ Fmt.join " " (q :: rest)).
    rewrite IH. reflexivity.
Qed.

Lemma Sprint_interleave ps : Fmt.Sprint (interleave ps) = Fmt.join " " ps.
Proof.
  destruct ps as [|p rest]; [reflexivity|].
  rewrite Sprint_interleave_tail. reflexivity.
Qed.

Lemma nonempty_app_colon pre : nonempty (pre +:+ ":") = true.
Proof. by destruct pre. Qed.

(** The text klog prints for the operands built by [concatenate]. *)
Lemma concatenate_text pre pieces :
  Fmt.Sprint (concatenate pre pieces) =
    assemble ((if String.eqb pre EmptyString then [] else [pre +:+ ":"]) ++ pieces).
Proof.
  unfold concatenate, assemble.
  destruct (String.eqb pre EmptyString).
  - change [] with (interleave []) at 1.
    by rewrite fold_concatenate_step, Sprint_interleave.
  - change [Str (pre +:+ ":")] with (interleave [pre +:+ ":"]).
    rewrite fold_concatenate_step, Sprint_interleave.
    cbn [app]. by rewrite filter_cons_True by apply nonempty_app_colon.
Qed.

(** ** Dispatch *)

Lemma trimDuplicates_two vals kvList :
  layers_hashable [vals; kvList] = true ->
  trimDuplicates [vals; kvList] =
    Ok [trimmed_fixed vals kvList; trimmed_user kvList].
Proof.
  intros Hhash. rewrite trimDuplicates_spec by done.
  rewrite !dedup_layers_cons. reflexivity.
Qed.

Lemma index_head {A} (x : A) l : index (x :: l) 0 = Ok x.
Proof. reflexivity. Qed.

Lemma index_second {A} (x y : A) l : index (x :: y :: l) 1 = Ok y.
Proof. reflexivity. Qed.

Lemma Info_spec l msg kvList stack (h : heap) s :
  Enabled l s = true ->
  layers_hashable [Go.load h (values l); kvList] = true ->
  Info l msg kvList stack h s =
    Ok (klog.Sink (klog.verbosity s)
          (klog.written s ++
             [klog.Entry klog.infoLog (framesToCaller stack)
                (info_text (prefix l) msg (Go.load h (values l)) kvList)])).
Proof.
  intros Hen Hhash. unfold Info. rewrite Hen, trimDuplicates_two by done.
  rewrite bind_Ok, index_head, bind_Ok, kvListFormat_render, bind_Ok.
  rewrite index_second, bind_Ok, kvListFormat_render, bind_Ok.
  reflexivity.
Qed.

Lemma Error_spec l err msg kvList stack (h : heap) s :
  layers_hashable [Go.load h (values l); kvList] = true ->
  Error l err msg kvList stack h s =
    Ok (klog.Sink (klog.verbosity s)
          (klog.written s ++
             [klog.Entry klog.errorLog (framesToCaller stack)
                (error_text (prefix l) err msg (Go.load h (values l)) kvList)])).
Proof.
  intros Hhash. unfold Error.
  rewrite kvListFormat_render, bind_Ok, trimDuplicates_two by done.
  rewrite bind_Ok, index_head, bind_Ok, kvListFormat_render, bind_Ok.
  rewrite index_second, bind_Ok, kvListFormat_render, bind_Ok.
  reflexivity.
Qed.

(** *** Panics of the deduplication *)

Lemma trim_layer_panic kvList i n : forall seen outs,
  n <= length (pairs kvList) ->
  forallb hashable (take n (keys kvList)) = false ->
  i < length outs ->
  trim_layer kvList i n seen outs = Panic unhashable_panic.
Proof.
  induction n as [|n IH]; intros seen outs Hn Hhash Hi; [discriminate|].
  destruct (pairs kvList !! n) as [[k v]|] eqn:E;
    [|apply lookup_ge_None in E; lia].
  destruct (pairs_with_index Nil kvList n k v E) as [Hk Hv].
  assert (Hkey : keys kvList !! n = Some k).
  { unfold keys. by rewrite list_lookup_fmap, E. }
  rewrite (take_S_r _ _ _ Hkey), forallb_app in Hhash. cbn in Hhash.
  rewrite andb_true_r in Hhash.
  rewrite trim_layer_S, Hk, bind_Ok. unfold map_has_key.
  destruct (hashable k); [|reflexivity].
  rewrite andb_true_r in Hhash. rewrite bind_Ok.
  case_bool_decide; [by apply IH; [lia|done|done]|].
  rewrite Hv, bind_Ok.
  destruct (lookup_lt_is_Some_2 outs i Hi) as [cur Hcur].
  rewrite (index_lookup _ _ _ Hcur), bind_Ok, assign_lt, bind_Ok by done.
  apply IH; [lia|done|by rewrite length_insert].
Qed.

Lemma trim_layers_panic kvLists n : forall seen outs,
  n <= length kvLists ->
  length outs = length kvLists ->
  layers_hashable (take n kvLists) = false ->
  trim_layers kvLists n seen outs = Panic unhashable_panic.
Proof.
  induction n as [|n IH]; intros seen outs Hn Hlen Hhash; [discriminate|].
  destruct (kvLists !! n) as [l|] eqn:E; [|apply lookup_ge_None in E; lia].
  unfold layers_hashable in Hhash.
  rewrite (take_S_r _ _ _ E), forallb_app in Hhash. cbn in Hhash.
  rewrite andb_true_r in Hhash.
  rewrite trim_layers_S, assign_lt, bind_Ok by lia.
  rewrite (index_lookup _ _ _ E), bind_Ok, scan_count_pairs.
  assert (Hall : take (length (pairs l)) (keys l) = keys l).
  { apply firstn_all2. unfold keys. rewrite length_fmap. lia. }
  destruct (keys_hashable l) eqn:Hl.
  - rewrite andb_true_r in Hhash.
    rewrite (trim_layer_spec l n _ seen _ []);
      [|lia|by rewrite Hall|apply list_lookup_insert_eq; lia].
    rewrite bind_Ok. cbn [fst snd].
    apply IH; [lia|by rewrite !length_insert|done].
  - rewrite trim_layer_panic;
      [reflexivity|lia|by rewrite Hall|rewrite length_insert; lia].
Qed.

(** [trimDuplicates] returns exactly on layers whose keys are hashable. *)
Lemma trimDuplicates_returns kvLists :
  returns (trimDuplicates kvLists) = layers_hashable kvLists.
Proof.
  destruct (layers_hashable kvLists) eqn:Hhash.
  - by rewrite trimDuplicates_spec.
  - unfold trimDuplicates. rewrite trim_layers_panic;
      [reflexivity|lia|by rewrite length_replicate|by rewrite firstn_all].
Qed.

Lemma trimDuplicates_panics kvLists :
  layers_hashable kvLists = false ->
  trimDuplicates kvLists = Panic unhashable_panic.
Proof.
  intros Hhash. unfold trimDuplicates. rewrite trim_layers_panic;
    [reflexivity|lia|by rewrite length_replicate|by rewrite firstn_all].
Qed.

Lemma V_fields l lvl (h : heap) :
  level (V l lvl h).1 = lvl /\ prefix (V l lvl h).1 = prefix l.
Proof. unfold V, clone. by destruct (copySlice (values l) h). Qed.

Lemma WithValues_fields spare l kvList (h : heap) :
  level (WithValues spare l kvList h).1 = level l /\
  prefix (WithValues spare l kvList h).1 = prefix l.
Proof.
  unfold WithValues, clone. destruct (copySlice (values l) h) as [vs h'].
  cbn [values]. by destruct (Go.append spare vs kvList h').
Qed.

(** C2: the logger made by [WithValues("a", 1)] and [WithName("svc")] from
    the root, called with [Info("started", "b", 2)] on a sink whose
    threshold is at least 0, writes one info record whose text is
    [svc: started a=1 b=2]: the non-empty pieces prefix and colon, message,
    accumulated values and call values joined by single spaces. *)
Theorem Info_end_to_end spare (h : heap) stack s :
  (0 <= klog.verbosity s)%Z ->
  let a := WithValues spare New [Str "a"; Int 1] h in
  let b := WithName a.1 "svc" a.2 in
  Info b.1 "started" [Str "b"; Int 2] stack b.2 s =
    Ok (klog.Sink (klog.verbosity s)
          (klog.written s ++
             [klog.Entry klog.infoLog (framesToCaller stack)
                "svc: started a=1 b=2"])) /\
  exists fixedStr userStr,
    kvListFormat [Str "a"; Int 1] = Ok fixedStr /\
    kvListFormat [Str "b"; Int 2] = Ok userStr /\
    "svc: started a=1 b=2" =
      assemble [prefix b.1 +:+ ":"; "started"; fixedStr; userStr].
Proof.
  intros Hv. cbv zeta.
  pose proof (mutate_spec spare New (MutWithValues [Str "a"; Int 1]) h I) as Ha.
  pose proof (WithValues_fields spare New [Str "a"; Int 1] h) as Hfa.
  cbn [mutate added] in Ha. cbv zeta in Ha.
  remember (WithValues spare New [Str "a"; Int 1] h) as a eqn:Ea.
  destruct Ha as (_ & Hwfa & _ & Hla). destruct Hfa as [Hlev Hpre].
  pose proof (mutate_spec spare a.1 (MutWithName "svc") a.2 Hwfa) as Hb.
  pose proof (WithName_fields a.1 "svc" a.2) as Hfb.
  cbn [mutate added] in Hb. cbv zeta in Hb.
  remember (WithName a.1 "svc" a.2) as b eqn:Eb.
  destruct Hb as (_ & _ & _ & Hlb). destruct Hfb as [Hpb Hlvb].
  rewrite Hla, app_nil_r in Hlb. rewrite Hpre in Hpb. rewrite Hlev in Hlvb.
  clear Ea Eb.
  change (Go.load b.2 (values b.1) = [Str "a"; Int 1]) in Hlb.
  change (prefix b.1 = "svc") in Hpb.
  change (level b.1 = 0%Z) in Hlvb.
  split.
  - rewrite Info_spec.
    + rewrite Hlb, Hpb. reflexivity.
    + unfold Enabled, klog.V_Enabled. rewrite Hlvb.
      apply Z.leb_le. exact Hv.
    + by rewrite Hlb.
  - exists "a=1", "b=2". rewrite Hpb. repeat split; vm_compute; reflexivity.
Qed.

(** The call on an empty heap and a sink with threshold 0. *)
Lemma Info_end_to_end_witness :
  (0 <= klog.verbosity (klog.Sink 0 []))%Z /\
  let a := WithValues double_spare New [Str "a"; Int 1] ∅ in
  let b := WithName a.1 "svc" a.2 in
  Info b.1 "started" [Str "b"; Int 2] app_stack b.2 (klog.Sink 0 []) =
    Ok (klog.Sink 0 [klog.Entry klog.infoLog 1 "svc: started a=1 b=2"]).
Proof.
  assert (H0 : (0 <= klog.verbosity (klog.Sink 0 []))%Z) by (cbn; lia).
  split; [exact H0|].
  exact (proj1 (Info_end_to_end double_spare ∅ app_stack (klog.Sink 0 []) H0)).
Defined.

(** C4: [Enabled] is the threshold check of the sink at the level of the
    logger (for a level in the [int32] range: the level is at most the
    threshold), and when it is false [Info] returns the sink as it was:
    nothing is written and nothing else changes. *)
Theorem Info_disabled_noop l s :
  Enabled l s = klog.V_Enabled (klog.Level (level l)) s /\
  ((- 2 ^ 31 <= level l < 2 ^ 31)%Z ->
     (Enabled l s = true <-> (level l <= klog.verbosity s)%Z)) /\
  (forall msg kvList stack (h : heap),
     Enabled l s = false -> Info l msg kvList stack h s = Ok s).
Proof.
  split; [reflexivity|]. split.
  - intros Hrange. unfold Enabled, klog.V_Enabled, klog.Level.
    replace ((level l + 2 ^ 31) mod 2 ^ 32 - 2 ^ 31)%Z with (level l).
    + apply Z.leb_le.
    + rewrite Z.mod_small by lia. lia.
  - intros msg kvList stack h Hoff. unfold Info. by rewrite Hoff.
Qed.

(** A logger of level 1 on a sink with threshold 0, called with a key that
    no map accepts: nothing happens. *)
Lemma Info_disabled_noop_witness :
  Enabled (Klogger 1 "svc" Go.nil_slice) (klog.Sink 0 []) = false /\
  Info (Klogger 1 "svc" Go.nil_slice) "msg" [IntSlice []; Int 1] app_stack ∅
       (klog.Sink 0 []) = Ok (klog.Sink 0 []) /\
  (Enabled (Klogger 1 "svc" Go.nil_slice) (klog.Sink 0 []) = true <->
   (1 <= 0)%Z).
Proof.
  split; [reflexivity|]. split.
  - apply (proj2 (proj2 (Info_disabled_noop (Klogger 1 "svc" Go.nil_slice)
                           (klog.Sink 0 [])))).
    reflexivity.
  - apply (proj1 (proj2 (Info_disabled_noop (Klogger 1 "svc" Go.nil_slice)
                           (klog.Sink 0 [])))).
    cbn. lia.
Defined.

(** C3 (amended to hashable keys): whatever the threshold of the sink and
    the level of the logger, [Error] appends exactly one error record at
    the resolved depth; in particular it does so where [Info] is
    suppressed. *)
Theorem Error_always_writes l err msg kvList stack (h : heap) s :
  layers_hashable [Go.load h (values l); kvList] = true ->
  Error l err msg kvList stack h s =
    Ok (klog.ErrorDepth (framesToCaller stack)
          (concatenate (prefix l)
             [msg; render [Str "err"; error_value err];
              render (trimmed_fixed (Go.load h (values l)) kvList);
              render (trimmed_user kvList)]) s) /\
  klog.written
    (klog.ErrorDepth (framesToCaller stack)
       (concatenate (prefix l)
          [msg; render [Str "err"; error_value err];
           render (trimmed_fixed (Go.load h (values l)) kvList);
           render (trimmed_user kvList)]) s)
  = klog.written s ++
      [klog.Entry klog.errorLog (framesToCaller stack)
         (error_text (prefix l) err msg (Go.load h (values l)) kvList)] /\
  (Enabled l s = false -> Info l msg kvList stack h s = Ok s).
Proof.
  intros Hhash. split; [|split].
  - by rewrite Error_spec.
  - reflexivity.
  - intros Hoff. unfold Info. by rewrite Hoff.
Qed.

(** A logger of level 5 on a sink with threshold 0: [Enabled] is false and
    the error record is written. *)
Lemma Error_always_writes_witness :
  layers_hashable [Go.load ∅ Go.nil_slice; [Str "k"; Int 1]] = true /\
  Enabled (Klogger 5 EmptyString Go.nil_slice) (klog.Sink 0 []) = false /\
  Error (Klogger 5 EmptyString Go.nil_slice) (Some "boom") "failed"
        [Str "k"; Int 1] app_stack ∅ (klog.Sink 0 [])
  = Ok (klog.Sink 0
          [klog.Entry klog.errorLog 1
             ("failed err=" +:+ Fmt.dquote +:+ "boom" +:+ Fmt.dquote +:+ " k=1")]).
Proof.
  split; [reflexivity|]. split; [reflexivity|].
  exact (proj1 (Error_always_writes (Klogger 5 EmptyString Go.nil_slice)
                  (Some "boom") "failed" [Str "k"; Int 1] app_stack ∅
                  (klog.Sink 0 []) eq_refl)).
Defined.

(** C3 as stated fails when a key is a slice: [Error] panics in the
    deduplication and nothing reaches the sink. *)
Lemma Error_unhashable_key_no_write :
  ~ exists s',
      Error New None "msg" [IntSlice []; Int 1] app_stack ∅ (klog.Sink 0 [])
      = Ok s'.
Proof. intros [s' H]. vm_compute in H. discriminate. Qed.

(** C7 (amended): [Error] completes exactly when every key of both layers
    is hashable, and [Info] exactly when it is disabled or every key is
    hashable; no other panic exists.  [Enabled], [V], [WithName] and
    [WithValues] use no operation that can panic and are plain functions
    here. *)
Theorem operations_total l err msg kvList stack (h : heap) s :
  returns (Error l err msg kvList stack h s)
    = layers_hashable [Go.load h (values l); kvList] /\
  returns (Info l msg kvList stack h s)
    = negb (Enabled l s) || layers_hashable [Go.load h (values l); kvList].
Proof.
  destruct (layers_hashable [Go.load h (values l); kvList]) eqn:Hhash.
  - split.
    + by rewrite Error_spec.
    + destruct (Enabled l s) eqn:Hen.
      * by rewrite Info_spec.
      * unfold Info. by rewrite Hen.
  - split.
    + unfold Error. rewrite kvListFormat_render, bind_Ok.
      by rewrite trimDuplicates_panics.
    + unfold Info. destruct (Enabled l s); [|reflexivity].
      by rewrite trimDuplicates_panics.
Qed.

(** C7 as stated fails: an enabled [Info] whose key is a slice panics. *)
Lemma Info_unhashable_key_panics :
  Info New "msg" [IntSlice [1%Z]; Int 2] app_stack ∅ (klog.Sink 0 [])
  = Panic unhashable_panic.
Proof. vm_compute. reflexivity. Qed.

(** *** A final key without a value *)

Lemma occurs_in_trans x y z : occurs_in x y -> occurs_in y z -> occurs_in x z.
Proof.
  intros (a & b & ->) (c & d & ->). exists (c +:+ a), (b +:+ d).
  by rewrite !string_app_assoc.
Qed.

Lemma occurs_in_join sep x l : x ∈ l -> occurs_in x (Fmt.join sep l).
Proof.
  induction l as [|y l IH]; intros Hin; [by apply elem_of_nil in Hin|].
  destruct l as [|z l].
  - apply list_elem_of_singleton in Hin as ->.
    exists EmptyString, EmptyString. by rewrite string_app_nil_r.
  - change (Fmt.join sep (y :: z :: l)) with (y +:+ sep +:+ Fmt.join sep (z :: l)).
    apply elem_of_cons in Hin as [->|Hin].
    + by exists EmptyString, (sep +:+ Fmt.join sep (z :: l)).
    + destruct (IH Hin) as (a & b & ->).
      exists (y +:+ sep +:+ a), b. by rewrite !string_app_assoc.
Qed.

Lemma occurs_in_nonempty x s :
  occurs_in x s -> nonempty x = true -> nonempty s = true.
Proof.
  intros (a & b & ->) Hx. destruct a; [|reflexivity].
  destruct x; [discriminate|reflexivity].
Qed.

Lemma occurs_in_assemble x pieces :
  nonempty x = true -> x ∈ pieces -> occurs_in x (assemble pieces).
Proof.
  intros Hx Hin. apply occurs_in_join, list_elem_of_filter. by split.
Qed.

Lemma lone_key_text_nonempty k : nonempty (Fmt.verb_s k +:+ "=<nil>") = true.
Proof. by destruct (Fmt.verb_s k). Qed.

(** A final lone key that has not been met is kept, with nil as value. *)
Lemma keep_last_lone seen init k :
  Nat.Even (length init) -> k ∉ seen ->
  exists o, (keep_last seen (pairs (init ++ [k]))).2 = o ++ [(k, Nil)].
Proof.
  intros He Hk. unfold pairs. rewrite pairs_with_app by done.
  rewrite keep_last_app. cbn [pairs_with keep_last].
  rewrite decide_False by done. cbn [fst snd]. eauto.
Qed.

Lemma render_lone_key o k :
  occurs_in (Fmt.verb_s k +:+ "=<nil>") (render (flatten (o ++ [(k, Nil)]))).
Proof.
  rewrite render_even.
  - unfold pairs. rewrite pairs_with_flatten. apply occurs_in_join.
    rewrite map_app. apply elem_of_app. right. cbn.
    apply list_elem_of_singleton. reflexivity.
  - exists (length (o ++ [(k, Nil)])). rewrite flatten_length. lia.
Qed.

Lemma trimmed_user_lone init k :
  Nat.Even (length init) ->
  occurs_in (Fmt.verb_s k +:+ "=<nil>") (render (trimmed_user (init ++ [k]))).
Proof.
  intros He. unfold trimmed_user.
  destruct (keep_last_lone ∅ init k He) as [o ->]; [set_solver|].
  apply render_lone_key.
Qed.

Lemma trimmed_fixed_lone init k kvList :
  Nat.Even (length init) -> k ∉ keys kvList ->
  occurs_in (Fmt.verb_s k +:+ "=<nil>")
    (render (trimmed_fixed (init ++ [k]) kvList)).
Proof.
  intros He Hk. unfold trimmed_fixed.
  destruct (keep_last_lone (keep_last ∅ (pairs kvList)).1 init k He) as [o ->].
  - rewrite keep_last_seen. unfold keys in Hk. set_solver.
  - apply render_lone_key.
Qed.

Lemma trimmed_even_length seen ps : Nat.Even (length (flatten (keep_last seen ps).2)).
Proof. exists (length (keep_last seen ps).2). by rewrite flatten_length. Qed.

(** C6 (amended): on layers with hashable keys an enabled [Info] and
    [Error] write their record whatever the lengths of the layers; both
    deduplicated layers have even length, so the formatter never takes its
    [(MISSING)] branch; a final lone key of the call list is written as
    [key=<nil>], and so is a final lone key of the accumulated values unless
    the call list has the same key. *)
Theorem lone_key_renders_nil l err msg kvList stack (h : heap) s :
  layers_hashable [Go.load h (values l); kvList] = true ->
  let vals := Go.load h (values l) in
  (Enabled l s = true ->
   Info l msg kvList stack h s =
     Ok (klog.Sink (klog.verbosity s)
           (klog.written s ++
              [klog.Entry klog.infoLog (framesToCaller stack)
                 (info_text (prefix l) msg vals kvList)]))) /\
  Error l err msg kvList stack h s =
    Ok (klog.Sink (klog.verbosity s)
          (klog.written s ++
             [klog.Entry klog.errorLog (framesToCaller stack)
                (error_text (prefix l) err msg vals kvList)])) /\
  Nat.Even (length (trimmed_fixed vals kvList)) /\
  Nat.Even (length (trimmed_user kvList)) /\
  (forall init k, kvList = init ++ [k] -> Nat.Even (length init) ->
     occurs_in (Fmt.verb_s k +:+ "=<nil>") (info_text (prefix l) msg vals kvList) /\
     occurs_in (Fmt.verb_s k +:+ "=<nil>") (error_text (prefix l) err msg vals kvList)) /\
  (forall init k, vals = init ++ [k] -> Nat.Even (length init) ->
     k ∉ keys kvList ->
     occurs_in (Fmt.verb_s k +:+ "=<nil>") (info_text (prefix l) msg vals kvList) /\
     occurs_in (Fmt.verb_s k +:+ "=<nil>") (error_text (prefix l) err msg vals kvList)).
Proof.
  intros Hhash vals.
  split; [intros Hen; by apply Info_spec|].
  split; [by apply Error_spec|].
  split; [apply trimmed_even_length|].
  split; [apply trimmed_even_length|].
  assert (Htext : forall x, nonempty x = true ->
    occurs_in x (render (trimmed_fixed vals kvList)) \/
    occurs_in x (render (trimmed_user kvList)) ->
    occurs_in x (info_text (prefix l) msg vals kvList) /\
    occurs_in x (error_text (prefix l) err msg vals kvList)).
  { intros x Hx Hocc. unfold info_text, error_text.
    rewrite !concatenate_text.
    destruct Hocc as [Hocc|Hocc].
    - split; (eapply occurs_in_trans; [exact Hocc|]);
        apply occurs_in_assemble;
        try (by eapply occurs_in_nonempty); set_solver.
    - split; (eapply occurs_in_trans; [exact Hocc|]);
        apply occurs_in_assemble;
        try (by eapply occurs_in_nonempty); set_solver. }
  split.
  - intros init k -> He. apply Htext; [apply lone_key_text_nonempty|].
    right. by apply trimmed_user_lone.
  - intros init k Hvals He Hk. apply Htext; [apply lone_key_text_nonempty|].
    left. rewrite Hvals. by apply trimmed_fixed_lone.
Qed.

(** A call whose only argument is a lone key. *)
Lemma lone_key_renders_nil_witness :
  layers_hashable [Go.load ∅ (values New); [Str "k"]] = true /\
  occurs_in "k=<nil>" (info_text EmptyString "msg" [] [Str "k"]) /\
  Error New None "msg" [Str "k"] app_stack ∅ (klog.Sink 0 [])
  = Ok (klog.Sink 0 [klog.Entry klog.errorLog 1 "msg err=<nil> k=<nil>"]).
Proof.
  split; [reflexivity|].
  destruct (lone_key_renders_nil New None "msg" [Str "k"] app_stack ∅
              (klog.Sink 0 []) eq_refl) as (_ & Herr & _ & _ & Huser & _).
  split.
  - exact (proj1 (Huser [] (Str "k") eq_refl (ex_intro _ 0 eq_refl))).
  - exact Herr.
Defined.

(** C6 as stated fails: the lone key of a call is written with [<nil>] and
    the text has no [(MISSING)]. *)
Lemma Info_lone_key_no_MISSING :
  Info New "msg" [Str "k"] app_stack ∅ (klog.Sink 0 [])
  = Ok (klog.Sink 0 [klog.Entry klog.infoLog 1 "msg k=<nil>"]) /\
  contains "(MISSING)" "msg k=<nil>" = false.
Proof. split; vm_compute; reflexivity. Qed.

(** * Further properties of the package *)

(** ** Deduplication over the merged layers *)

Lemma layers_hashable_spec kvLists :
  layers_hashable kvLists = true <->
  forall k, k ∈ (merged kvLists).*1 -> hashable k = true.
Proof.
  unfold layers_hashable, merged. induction kvLists as [|l ls IH].
  - split; [intros _ k Hk; by apply elem_of_nil in Hk|done].
  - cbn [forallb]. rewrite andb_true_iff, IH, bind_cons, fmap_app.
    unfold keys_hashable, keys. rewrite forallb_forall. split.
    + intros [Hl Hls] k [Hk|Hk]%elem_of_app; [|by apply Hls].
      apply Hl. by apply list_elem_of_In.
    + intros Hall. split.
      * intros k Hk. apply Hall, elem_of_app. left. by apply list_elem_of_In.
      * intros k Hk. apply Hall, elem_of_app. by right.
Qed.

Lemma pairs_flatten ps : pairs (flatten ps) = ps.
Proof. apply pairs_with_flatten. Qed.

(** Deduplicating layer by layer is deduplicating the merged pairs. *)
Lemma dedup_layers_merged seen ls :
  (dedup_layers seen ls).1 = (keep_last seen (merged ls)).1 /\
  merged (dedup_layers seen ls).2 = (keep_last seen (merged ls)).2.
Proof.
  unfold merged. induction ls as [|l ls [IH1 IH2]]; [done|].
  rewrite dedup_layers_cons, !bind_cons, keep_last_app. cbn [fst snd].
  rewrite IH1. split; [done|].
  by rewrite bind_cons, pairs_flatten, IH2.
Qed.

Lemma keep_last_elem seen ps k v :
  (k, v) ∈ (keep_last seen ps).2 <->
  (k ∉ seen) /\ exists l1 l2, ps = l1 ++ (k, v) :: l2 /\ k ∉ l2.*1.
Proof.
  split.
  - induction ps as [|[k0 v0] ps IH]; [cbn; by intros ?%elem_of_nil|].
    rewrite keep_last_cons. case_decide as Hk0; cbn [snd].
    + intros Hin. destruct (IH Hin) as (Hs & l1 & l2 & -> & Hl2).
      split; [done|]. by exists ((k0, v0) :: l1), l2.
    + intros [Heq|Hin]%elem_of_cons.
      * injection Heq as -> ->. rewrite keep_last_seen in Hk0.
        split; [set_solver|]. exists [], ps. split; [done|]. set_solver.
      * destruct (IH Hin) as (Hs & l1 & l2 & -> & Hl2).
        split; [done|]. by exists ((k0, v0) :: l1), l2.
  - intros (Hs & l1 & l2 & -> & Hl2). by apply keep_last_keeps.
Qed.

Lemma keep_last_keys seen ps :
  list_to_set (keep_last seen ps).2.*1 ∪ seen = (keep_last seen ps).1.
Proof.
  induction ps as [|[k v] ps IH]; [cbn; set_solver|].
  rewrite keep_last_cons. case_decide; cbn [fst snd]; [done|].
  rewrite fmap_cons, list_to_set_cons, <- IH. cbn [fst]. set_solver.
Qed.

(** Pairs with distinct keys, none of them met before, are all kept. *)
Lemma keep_last_id seen ps :
  NoDup ps.*1 -> (forall k, k ∈ ps.*1 -> k ∉ seen) ->
  keep_last seen ps = (list_to_set ps.*1 ∪ seen, ps).
Proof.
  induction ps as [|[k v] ps IH]; intros Hnd Hseen; [cbn; f_equal; set_solver|].
  rewrite fmap_cons in Hnd. apply NoDup_cons in Hnd as [Hk Hnd].
  rewrite keep_last_cons, IH; [|done|intros k' Hk'; apply Hseen; set_solver].
  cbn [fst snd]. rewrite decide_False.
  - f_equal. rewrite fmap_cons, list_to_set_cons. cbn [fst]. set_solver.
  - intros [Hin|Hin]%elem_of_union.
    + by apply elem_of_list_to_set in Hin.
    + apply (Hseen k); [set_solver|done].
Qed.

Lemma dedup_layers_id seen os :
  Forall (fun o => o = flatten (pairs o)) os ->
  NoDup (merged os).*1 ->
  (forall k, k ∈ (merged os).*1 -> k ∉ seen) ->
  dedup_layers seen os = (list_to_set (merged os).*1 ∪ seen, os).
Proof.
  unfold merged. induction os as [|o os IH]; intros Hform Hnd Hseen.
  - cbn. f_equal. set_solver.
  - apply Forall_cons in Hform as [Ho Hform].
    rewrite bind_cons, fmap_app in Hnd, Hseen.
    apply NoDup_app in Hnd as (Hndo & Hdisj & Hndos).
    rewrite dedup_layers_cons, IH;
      [|done|done|intros k Hk; apply Hseen, elem_of_app; by right].
    cbn [fst snd]. rewrite keep_last_id; [|done|].
    + cbn [fst snd]. rewrite <- Ho. f_equal.
      rewrite bind_cons, fmap_app, list_to_set_app_L. set_solver.
    + intros k Hk [Hin|Hin]%elem_of_union.
      * apply elem_of_list_to_set in Hin. by apply (Hdisj k).
      * apply (Hseen k); [apply elem_of_app; by left|done].
Qed.

Lemma dedup_layers_form seen ls :
  Forall (fun o => o = flatten (pairs o)) (dedup_layers seen ls).2.
Proof.
  induction ls as [|l ls IH]; [constructor|].
  rewrite dedup_layers_cons. cbn [snd]. constructor; [|done].
  by rewrite pairs_flatten.
Qed.

Lemma keep_last_unless seen later ps :
  (forall k, k ∈ seen <-> k ∈ later) ->
  (keep_last seen ps).2 = keep_unless_later later ps.
Proof.
  intros Hsame. induction ps as [|[k v] ps IH]; [done|].
  rewrite keep_last_cons. cbn [keep_unless_later].
  assert (Hiff : k ∈ (keep_last seen ps).1 <-> k ∈ ps.*1 ++ later).
  { rewrite keep_last_seen, elem_of_union, elem_of_list_to_set, elem_of_app.
    by rewrite Hsame. }
  case_decide as H1; case_decide as H2; cbn [snd].
  - exact IH.
  - by apply Hiff in H1.
  - by apply Hiff in H2.
  - by rewrite IH.
Qed.

(** X1: on layers with hashable keys, the pairs that [trimDuplicates]
    returns are, in order, exactly the pairs of the merged input that have
    no pair with the same key after them, in the same layer or a later
    one: for every key the last value given wins.  Layer by layer, the
    result at [i] is the pairs of layer [i] whose key occurs neither later
    in the layer nor in a later layer. *)
Theorem trimDuplicates_last_wins kvLists :
  layers_hashable kvLists = true ->
  exists outs,
    trimDuplicates kvLists = Ok outs /\
    merged outs = last_occurrences (merged kvLists) /\
    (forall i li, kvLists !! i = Some li ->
       outs !! i =
         Some (flatten (keep_unless_later (drop (S i) kvLists ≫= keys)
                          (pairs li)))) /\
    merged outs `sublist_of` merged kvLists /\
    forall k v,
      (k, v) ∈ merged outs <->
      exists l1 l2, merged kvLists = l1 ++ (k, v) :: l2 /\ k ∉ l2.*1.
Proof.
  intros Hhash. exists (dedup_layers ∅ kvLists).2.
  split; [by apply trimDuplicates_spec|].
  split.
  { destruct (dedup_layers_merged ∅ kvLists) as [_ ->].
    apply keep_last_unless. intros k. set_solver. }
  split.
  { intros i li Hi. rewrite (dedup_layers_lookup _ _ _ _ Hi). do 2 f_equal.
    apply keep_last_unless. intros k. set_solver. }
  destruct (dedup_layers_merged ∅ kvLists) as [_ ->].
  split; [apply keep_last_sublist|].
  intros k v. rewrite keep_last_elem. split.
  - by intros [_ H].
  - intros H. split; [set_solver|done].
Qed.

(** A layer that gives the same pair twice with another pair in between:
    the second of the two equal pairs is the one that stays, after the
    other pair. *)
Lemma trimDuplicates_last_wins_witness :
  layers_hashable [[Str "a"; Int 1; Str "b"; Int 2; Str "a"; Int 1]] = true /\
  exists outs,
    trimDuplicates [[Str "a"; Int 1; Str "b"; Int 2; Str "a"; Int 1]] = Ok outs /\
    merged outs = [(Str "b", Int 2); (Str "a", Int 1)] /\
    outs !! 0 = Some [Str "b"; Int 2; Str "a"; Int 1].
Proof.
  split; [reflexivity|].
  destruct (trimDuplicates_last_wins
              [[Str "a"; Int 1; Str "b"; Int 2; Str "a"; Int 1]] eq_refl)
    as (outs & Hout & Hmerged & Hlayer & _).
  exists outs. split; [exact Hout|]. split.
  - rewrite Hmerged. vm_compute. reflexivity.
  - rewrite (Hlayer 0 _ eq_refl). vm_compute. reflexivity.
Defined.

(** X2: on layers with hashable keys, no key occurs twice in the layers
    returned by [trimDuplicates], and no key of the input is lost. *)
Theorem trimDuplicates_keys_distinct kvLists :
  layers_hashable kvLists = true ->
  exists outs,
    trimDuplicates kvLists = Ok outs /\
    NoDup (merged outs).*1 /\
    forall k, k ∈ (merged outs).*1 <-> k ∈ (merged kvLists).*1.
Proof.
  intros Hhash. exists (dedup_layers ∅ kvLists).2.
  split; [by apply trimDuplicates_spec|].
  destruct (dedup_layers_merged ∅ kvLists) as [_ ->].
  split; [apply keep_last_NoDup|].
  intros k.
  pose proof (keep_last_keys ∅ (merged kvLists)) as Hkeys.
  rewrite keep_last_seen in Hkeys. set_solver.
Qed.

(** Three layers that share keys. *)
Lemma trimDuplicates_keys_distinct_witness :
  layers_hashable [[Str "a"; Int 1; Str "b"]; [Str "b"; Int 2]; [Str "a"]] = true /\
  exists outs,
    trimDuplicates [[Str "a"; Int 1; Str "b"]; [Str "b"; Int 2]; [Str "a"]] = Ok outs /\
    NoDup (merged outs).*1.
Proof.
  split; [reflexivity|].
  destruct (trimDuplicates_keys_distinct
              [[Str "a"; Int 1; Str "b"]; [Str "b"; Int 2]; [Str "a"]] eq_refl)
    as (outs & Hout & Hnd & _).
  exists outs. split; [exact Hout|exact Hnd].
Defined.

(** X3: layers of whole pairs whose keys are hashable and all distinct are
    returned unchanged; in particular [trimDuplicates] applied to its own
    result returns it again. *)
Theorem trimDuplicates_stable :
  (forall os,
     Forall (fun o => o = flatten (pairs o)) os ->
     NoDup (merged os).*1 ->
     layers_hashable os = true ->
     trimDuplicates os = Ok os) /\
  (forall kvLists,
     layers_hashable kvLists = true ->
     exists outs,
       trimDuplicates kvLists = Ok outs /\ trimDuplicates outs = Ok outs).
Proof.
  assert (Hfix : forall os,
    Forall (fun o => o = flatten (pairs o)) os ->
    NoDup (merged os).*1 ->
    layers_hashable os = true ->
    trimDuplicates os = Ok os).
  { intros os Hform Hnd Hhash. rewrite trimDuplicates_spec by done.
    rewrite dedup_layers_id; [done|done|done|set_solver]. }
  split; [exact Hfix|].
  intros kvLists Hhash. exists (dedup_layers ∅ kvLists).2.
  split; [by apply trimDuplicates_spec|].
  destruct (dedup_layers_merged ∅ kvLists) as [_ Hm].
  apply Hfix.
  - apply dedup_layers_form.
  - rewrite Hm. apply keep_last_NoDup.
  - apply layers_hashable_spec. intros k Hk. rewrite Hm in Hk.
    apply (proj1 (layers_hashable_spec kvLists) Hhash).
    eapply elem_of_sublist; [exact Hk|].
    apply fmap_sublist, keep_last_sublist.
Qed.

(** Two layers without a repeated key, and two layers with one. *)
Lemma trimDuplicates_stable_witness :
  trimDuplicates [[Str "a"; Int 1]; [Str "b"; Nil]]
    = Ok [[Str "a"; Int 1]; [Str "b"; Nil]] /\
  exists outs,
    trimDuplicates [[Str "a"; Int 1; Str "b"]; [Str "b"; Int 2]] = Ok outs /\
    trimDuplicates outs = Ok outs.
Proof.
  split.
  - apply (proj1 trimDuplicates_stable).
    + repeat constructor.
    + cbn. apply NoDup_cons. split; [set_solver|].
      apply NoDup_cons. split; [set_solver|]. constructor.
    + reflexivity.
  - apply (proj2 trimDuplicates_stable). reflexivity.
Defined.

(** ** Formatting and concatenation of layers *)

Lemma join_app sep (l1 l2 : list string) :
  l1 <> [] -> l2 <> [] ->
  Fmt.join sep (l1 ++ l2) = Fmt.join sep l1 +:+ sep +:+ Fmt.join sep l2.
Proof.
  intros H1 H2. induction l1 as [|x l1 IH]; [done|].
  destruct l1 as [|y l1].
  - destruct l2 as [|z l2]; [done|]. reflexivity.
  - change (x +:+ sep +:+ Fmt.join sep ((y :: l1) ++ l2)
            = (x +:+ sep +:+ Fmt.join sep (y :: l1)) +:+ sep +:+ Fmt.join sep l2).
    rewrite IH by done. by rewrite !string_app_assoc.
Qed.

Lemma entries_nonempty kvs : kvs <> [] -> entries kvs <> [].
Proof. by destruct kvs as [|k [|v rest]]. Qed.

(** X4: formatting a layer of whole pairs followed by another layer gives
    the two formatted layers with one space between them, so the format of
    accumulated values does not depend on how they were accumulated. *)
Theorem kvListFormat_app a b :
  Nat.Even (length a) -> a <> [] -> b <> [] ->
  exists ra rb,
    kvListFormat a = Ok ra /\ kvListFormat b = Ok rb /\
    kvListFormat (a ++ b) = Ok (ra +:+ " " +:+ rb).
Proof.
  intros He Ha Hb. exists (render a), (render b).
  rewrite !kvListFormat_render. repeat split. f_equal.
  unfold render, entries. rewrite pairs_with_app, map_app by done.
  apply join_app; intros Hnil; apply map_eq_nil in Hnil.
  - exact (entries_nonempty a Ha Hnil).
  - exact (entries_nonempty b Hb Hnil).
Qed.

(** Two pairs, then a pair with a string value. *)
Lemma kvListFormat_app_witness :
  Nat.Even (length [Str "a"; Int 1]) /\
  kvListFormat ([Str "a"; Int 1] ++ [Str "b"; Bool true; Str "c"])
    = Ok ("a=1 b=true c=" +:+ Fmt.Quote "(MISSING)").
Proof.
  assert (He : Nat.Even (length [Str "a"; Int 1])) by (exists 1; reflexivity).
  split; [exact He|].
  destruct (kvListFormat_app [Str "a"; Int 1] [Str "b"; Bool true; Str "c"] He)
    as (ra & rb & Ha & Hb & Hab); [done|done|].
  rewrite Hab. vm_compute in Ha, Hb.
  injection Ha as <-. injection Hb as <-. reflexivity.
Defined.

Lemma pairs_with_odd d d' kvs :
  Nat.Odd (length kvs) -> pairs_with d kvs = pairs_with d' (kvs ++ [d]).
Proof.
  induction kvs as [| k | k v rest IH] using list_pair_ind; intros Ho.
  - destruct Ho as [m Hm]. cbn in Hm. lia.
  - reflexivity.
  - cbn [pairs_with app]. f_equal. apply IH.
    destruct Ho as [m Hm]. cbn [length] in Hm. exists (m - 1). lia.
Qed.

(** X5: a layer of odd length is formatted exactly like the same layer
    with the string [(MISSING)] appended as the value of its last key. *)
Theorem kvListFormat_odd kvs :
  Nat.Odd (length kvs) ->
  kvListFormat kvs = kvListFormat (kvs ++ [Str missingValue]).
Proof.
  intros Ho. rewrite !kvListFormat_render. f_equal.
  unfold render, entries. by rewrite <- pairs_with_odd.
Qed.

(** A pair and a lone key. *)
Lemma kvListFormat_odd_witness :
  Nat.Odd (length [Str "a"; Int 1; Str "b"]) /\
  kvListFormat [Str "a"; Int 1; Str "b"]
    = kvListFormat [Str "a"; Int 1; Str "b"; Str "(MISSING)"].
Proof.
  assert (Ho : Nat.Odd (length [Str "a"; Int 1; Str "b"]))
    by (exists 1; reflexivity).
  split; [exact Ho|].
  exact (kvListFormat_odd [Str "a"; Int 1; Str "b"] Ho).
Defined.

(** ** Operands handed to klog *)

Lemma interleave_nil ps : interleave ps = [] <-> ps = [].
Proof. by destruct ps. Qed.

Lemma interleave_strings ps :
  Forall (fun a => Fmt.is_string a = true) (interleave ps).
Proof.
  destruct ps as [|p rest]; [constructor|]. cbn [interleave].
  constructor; [done|]. induction rest as [|q rest IH]; [constructor|].
  rewrite bind_cons. by repeat constructor.
Qed.

Lemma interleave_length ps : length (interleave ps) = 2 * length ps - 1.
Proof.
  destruct ps as [|p rest]; [done|]. cbn [interleave length].
  replace (2 * S (length rest) - 1) with (S (2 * length rest)) by lia. f_equal.
  induction rest as [|q rest IH]; [done|].
  rewrite bind_cons, length_app, IH. cbn [length]. lia.
Qed.

(** X6: [concatenate] returns the prefix with a colon (when the prefix is
    not empty) and the non-empty pieces, in order, with a one-space string
    between neighbours: all operands are strings, [n] parts give [2n - 1]
    operands, and the result is nil exactly when the prefix and all pieces
    are empty. *)
Theorem concatenate_operands pre pieces :
  let parts :=
    (if String.eqb pre EmptyString then [] else [pre +:+ ":"])
      ++ filter (fun p => nonempty p = true) pieces in
  concatenate pre pieces = interleave parts /\
  Forall (fun a => Fmt.is_string a = true) (concatenate pre pieces) /\
  length (concatenate pre pieces) = 2 * length parts - 1 /\
  (concatenate pre pieces = [] <->
   pre = EmptyString /\ Forall (fun p => p = EmptyString) pieces).
Proof.
  intros parts.
  assert (Heq : concatenate pre pieces = interleave parts).
  { unfold concatenate, parts. destruct (String.eqb pre EmptyString).
    - change [] with (interleave []) at 1. by rewrite fold_concatenate_step.
    - change [Str (pre +:+ ":")] with (interleave [pre +:+ ":"]).
      by rewrite fold_concatenate_step. }
  rewrite Heq.
  split; [done|]. split; [apply interleave_strings|].
  split; [apply interleave_length|].
  rewrite interleave_nil. unfold parts.
  destruct (String.eqb_spec pre EmptyString) as [->|Hne].
  - cbn [app]. split.
    + intros Hnil. split; [done|].
      apply Forall_forall. intros p Hp.
      destruct (String.eqb_spec p EmptyString) as [|Hp']; [done|].
      assert (Hin : p ∈ filter (fun p => nonempty p = true) pieces).
      { apply list_elem_of_filter. split; [|done].
        unfold nonempty. by apply String.eqb_neq in Hp' as ->. }
      rewrite Hnil in Hin. by apply elem_of_nil in Hin.
    + intros [_ Hall]. clear Heq parts.
      induction Hall as [|p ps -> _ IH]; [done|].
      rewrite filter_cons_False; [exact IH|]. by cbn.
  - split; [done|]. by intros [? _].
Qed.

(** ** Depth handed to klog *)

(** X7: whatever the call stack, the depth computed by [framesToCaller] is
    1 or 2, and it is 2 exactly when the frame above the caller is
    autogenerated and the one above that is not. *)
Theorem framesToCaller_range (stack : callstack) :
  (framesToCaller stack = 1 \/ framesToCaller stack = 2) /\
  (framesToCaller stack = 2 <->
   stack 2 = autogeneratedFrameName /\ stack 3 <> autogeneratedFrameName).
Proof.
  unfold framesToCaller. cbn [framesToCaller_loop Nat.add].
  destruct (String.eqb_spec (stack 2) autogeneratedFrameName) as [H2|H2];
    cbn [negb].
  - destruct (String.eqb_spec (stack 3) autogeneratedFrameName) as [H3|H3];
      cbn [negb].
    + split; [by left|]. split; [discriminate|]. by intros [_ ?].
    + split; [by right|]. by split.
  - split; [by left|]. split; [discriminate|]. by intros [? _].
Qed.

(** ** Chains of derivations *)

Lemma mutate_fields spare l m (h : heap) :
  level (mutate spare l m h).1 = match m with MutV n => n | _ => level l end /\
  exists suffix, prefix (mutate spare l m h).1 = prefix l +:+ suffix.
Proof.
  destruct m as [n|name|kvList]; cbn [mutate].
  - destruct (V_fields l n h) as [-> ->]. split; [done|].
    exists EmptyString. by rewrite string_app_nil_r.
  - destruct (WithName_fields l name h) as [-> ->]. split; [done|].
    destruct (String.eqb_spec (prefix l) EmptyString) as [->|_].
    + by exists name.
    + by exists ("/" +:+ name).
  - destruct (WithValues_fields spare l kvList h) as [-> ->]. split; [done|].
    exists EmptyString. by rewrite string_app_nil_r.
Qed.

Lemma join_cons_fold (p n : string) rest :
  Fmt.join "/" ((p +:+ "/" +:+ n) :: rest) = Fmt.join "/" (p :: n :: rest).
Proof.
  destruct rest as [|r rs]; [reflexivity|].
  change ((p +:+ "/" +:+ n) +:+ "/" +:+ Fmt.join "/" (r :: rs)
          = p +:+ "/" +:+ n +:+ "/" +:+ Fmt.join "/" (r :: rs)).
  by rewrite !string_app_assoc.
Qed.

Lemma derive_names_nonempty spare names : forall l (h : heap),
  prefix l <> EmptyString ->
  prefix (derive spare l (MutWithName <$> names) h).1
    = Fmt.join "/" (prefix l :: names).
Proof.
  induction names as [|n rest IH]; intros l h Hne; [reflexivity|].
  rewrite fmap_cons. cbn [derive mutate].
  destruct (WithName_fields l n h) as [Hp _].
  destruct (WithName l n h) as [l' h']. cbn [fst] in Hp.
  apply String.eqb_neq in Hne as Hneb. rewrite Hneb in Hp.
  rewrite IH, Hp; [apply join_cons_fold|].
  rewrite Hp. destruct (prefix l); [done|discriminate].
Qed.

Lemma derive_names_empty spare names : forall l (h : heap),
  prefix l = EmptyString ->
  prefix (derive spare l (MutWithName <$> names) h).1
    = Fmt.join "/" (skip_empty names).
Proof.
  induction names as [|n rest IH]; intros l h He; [exact He|].
  rewrite fmap_cons. cbn [derive mutate skip_empty].
  destruct (WithName_fields l n h) as [Hp _].
  pose proof (derive_names_nonempty spare rest (WithName l n h).1
                (WithName l n h).2) as Hrest.
  destruct (WithName l n h) as [l' h']. cbn [fst snd] in Hp, Hrest.
  rewrite He in Hp. cbn in Hp.
  destruct (String.eqb_spec n EmptyString) as [->|Hn].
  - by apply IH.
  - rewrite Hrest, Hp; [done|]. by rewrite Hp.
Qed.

(** X8: a chain of [WithName] calls from the root gives the names joined by
    [/], the empty names at the front left out; from a logger with a
    non-empty prefix it gives the prefix and all names joined by [/]. *)
Theorem WithName_chain spare names (h : heap) :
  prefix (derive spare New (MutWithName <$> names) h).1
    = Fmt.join "/" (skip_empty names) /\
  (forall l, prefix l <> EmptyString ->
     prefix (derive spare l (MutWithName <$> names) h).1
       = Fmt.join "/" (prefix l :: names)).
Proof.
  split.
  - by apply derive_names_empty.
  - intros l Hne. by apply derive_names_nonempty.
Qed.

(** Names with empty ones at the front, inside and at the end. *)
Lemma WithName_chain_witness :
  prefix (derive double_spare New
            (MutWithName <$> [EmptyString; "a"; EmptyString; "b"]) ∅).1 = "a//b" /\
  prefix (derive double_spare (Klogger 0 "svc" Go.nil_slice)
            (MutWithName <$> ["x"; EmptyString]) ∅).1 = "svc/x/".
Proof.
  split.
  - exact (proj1 (WithName_chain double_spare [EmptyString; "a"; EmptyString; "b"] ∅)).
  - apply (proj2 (WithName_chain double_spare ["x"; EmptyString] ∅)
             (Klogger 0 "svc" Go.nil_slice)).
    discriminate.
Defined.

(** X9: after any chain of [V], [WithName] and [WithValues] the values of
    the result are the values of the first logger followed by every list
    given to [WithValues], in order and with repeated keys kept; the prefix
    has the first prefix at its front; the level is that of the last [V],
    or the first level when the chain has none. *)
Theorem derive_accumulates spare ms : forall l (h : heap),
  wf h l ->
  Go.load (derive spare l ms h).2 (values (derive spare l ms h).1)
    = Go.load h (values l) ++ (ms ≫= added) /\
  (exists suffix, prefix (derive spare l ms h).1 = prefix l +:+ suffix) /\
  level (derive spare l ms h).1
    = fold_left (fun lv m => match m with MutV n => n | _ => lv end) ms (level l).
Proof.
  induction ms as [|m ms IH]; intros l h Hwf.
  - cbn. rewrite app_nil_r. split; [done|]. split; [|done].
    exists EmptyString. by rewrite string_app_nil_r.
  - cbn [derive fold_left]. rewrite bind_cons.
    destruct (mutate_spec spare l m h Hwf) as (_ & Hwf' & _ & Hload).
    destruct (mutate_fields spare l m h) as (Hlev & suffix & Hpre).
    destruct (mutate spare l m h) as [l' h']. cbn [fst snd] in *.
    destruct (IH l' h' Hwf') as (Hl & (suffix' & Hp) & Hv).
    rewrite Hl, Hload, Hp, Hpre, Hv, Hlev.
    split; [by rewrite app_assoc|]. split; [|done].
    exists (suffix +:+ suffix'). by rewrite string_app_assoc.
Qed.

(** Two lists of values with a repeated key, a name and two levels. *)
Lemma derive_accumulates_witness :
  wf ∅ New /\
  let r := derive double_spare New
             [MutWithValues [Str "a"; Int 1]; MutV 3; MutWithName "svc";
              MutWithValues [Str "a"; Int 2]; MutV 1] ∅ in
  Go.load r.2 (values r.1) = [Str "a"; Int 1; Str "a"; Int 2] /\
  level r.1 = 1%Z.
Proof.
  split; [exact I|]. cbv zeta.
  destruct (derive_accumulates double_spare
              [MutWithValues [Str "a"; Int 1]; MutV 3; MutWithName "svc";
               MutWithValues [Str "a"; Int 2]; MutV 1] New ∅ I)
    as (Hload & _ & Hlev).
  split; [exact Hload|exact Hlev].
Defined.

(** ** What a call depends on *)

Lemma Info_ext l l' msg kvList stack (h h' : heap) s :
  level l = level l' -> prefix l = prefix l' ->
  Go.load h (values l) = Go.load h' (values l') ->
  Info l msg kvList stack h s = Info l' msg kvList stack h' s.
Proof.
  intros Hlev Hpre Hload. unfold Info, Enabled. by rewrite Hlev, Hpre, Hload.
Qed.

Lemma Error_ext l l' err msg kvList stack (h h' : heap) s :
  prefix l = prefix l' ->
  Go.load h (values l) = Go.load h' (values l') ->
  Error l err msg kvList stack h s = Error l' err msg kvList stack h' s.
Proof. intros Hpre Hload. unfold Error. by rewrite Hpre, Hload. Qed.



(** X11: giving a name and then values, or the values and then the name,
    makes loggers with the same level, prefix and values, so [Info] and
    [Error] write the same for both. *)
Theorem WithName_WithValues_commute spare l name kvList (h : heap) :
  wf h l ->
  let a := WithName l name h in
  let a' := WithValues spare a.1 kvList a.2 in
  let b := WithValues spare l kvList h in
  let b' := WithName b.1 name b.2 in
  level a'.1 = level b'.1 /\
  prefix a'.1 = prefix b'.1 /\
  Go.load a'.2 (values a'.1) = Go.load b'.2 (values b'.1) /\
  (forall msg kvs stack s,
     Info a'.1 msg kvs stack a'.2 s = Info b'.1 msg kvs stack b'.2 s) /\
  (forall err msg kvs stack s,
     Error a'.1 err msg kvs stack a'.2 s = Error b'.1 err msg kvs stack b'.2 s).
Proof.
  intros Hwf. cbv zeta.
  pose proof (derive_accumulates spare [MutWithName name; MutWithValues kvList] l h Hwf)
    as (Hla & _ & Hva).
  pose proof (derive_accumulates spare [MutWithValues kvList; MutWithName name] l h Hwf)
    as (Hlb & _ & Hvb).
  cbn [derive mutate] in Hla, Hva, Hlb, Hvb.
  pose proof (WithName_fields l name h) as [Hpa _].
  pose proof (WithValues_fields spare l kvList h) as [_ Hpb].
  destruct (WithName l name h) as [a ha].
  destruct (WithValues spare l kvList h) as [b hb].
  cbn [fst snd] in *.
  pose proof (WithValues_fields spare a kvList ha) as [_ Hpa'].
  pose proof (WithName_fields b name hb) as [Hpb' _].
  destruct (WithValues spare a kvList ha) as [a' ha'].
  destruct (WithName b name hb) as [b' hb'].
  cbn [fst snd] in *.
  assert (Hlev : level a' = level b') by (by rewrite Hva, Hvb).
  assert (Hpre : prefix a' = prefix b') by (by rewrite Hpa', Hpa, Hpb', Hpb).
  assert (Hload : Go.load ha' (values a') = Go.load hb' (values b')).
  { rewrite Hla, Hlb. cbn. by rewrite !app_nil_r. }
  repeat split; try done.
  - intros msg kvs stack s. by apply Info_ext.
  - intros err msg kvs stack s. by apply Error_ext.
Qed.

(** The root logger, a name and one pair. *)
Lemma WithName_WithValues_commute_witness :
  wf ∅ New /\
  let a := WithName New "svc" ∅ in
  let a' := WithValues double_spare a.1 [Str "k"; Int 1] a.2 in
  let b := WithValues double_spare New [Str "k"; Int 1] ∅ in
  let b' := WithName b.1 "svc" b.2 in
  Info a'.1 "msg" [] app_stack a'.2 (klog.Sink 0 [])
  = Info b'.1 "msg" [] app_stack b'.2 (klog.Sink 0 []).
Proof.
  split; [exact I|]. cbv zeta.
  destruct (WithName_WithValues_commute double_spare New "svc" [Str "k"; Int 1] ∅ I)
    as (_ & _ & _ & Hinfo & _).
  exact (Hinfo "msg" [] app_stack (klog.Sink 0 [])).
Defined.

(** ** The text of a record *)

(** X12: for every logger whose level the sink passes and all layers with
    hashable keys, [Info] appends one info record and changes nothing
    else; its text is the prefix with a colon (left out when the prefix is
    empty), the message, the formatted accumulated layer and the formatted
    call layer, both after deduplication, the empty ones left out and the
    rest joined by single spaces. *)
Theorem Info_text_assembled l msg kvList stack (h : heap) s :
  Enabled l s = true ->
  layers_hashable [Go.load h (values l); kvList] = true ->
  exists fixed user fixedStr userStr,
    trimDuplicates [Go.load h (values l); kvList] = Ok [fixed; user] /\
    kvListFormat fixed = Ok fixedStr /\
    kvListFormat user = Ok userStr /\
    Info l msg kvList stack h s =
      Ok (klog.Sink (klog.verbosity s)
            (klog.written s ++
               [klog.Entry klog.infoLog (framesToCaller stack)
                  (assemble
                     ((if String.eqb (prefix l) EmptyString then []
                       else [prefix l +:+ ":"])
                      ++ [msg; fixedStr; userStr]))])).
Proof.
  intros Hen Hhash.
  exists (trimmed_fixed (Go.load h (values l)) kvList), (trimmed_user kvList).
  exists (render (trimmed_fixed (Go.load h (values l)) kvList)),
         (render (trimmed_user kvList)).
  split; [by apply trimDuplicates_two|].
  split; [apply kvListFormat_render|]. split; [apply kvListFormat_render|].
  rewrite Info_spec by done. unfold info_text. by rewrite concatenate_text.
Qed.

(** A logger without prefix and an empty message: the text is the pair. *)
Lemma Info_text_assembled_witness :
  Enabled New (klog.Sink 0 []) = true /\
  layers_hashable [Go.load ∅ (values New); [Str "k"; Int 1]] = true /\
  Info New EmptyString [Str "k"; Int 1] app_stack ∅ (klog.Sink 0 [])
  = Ok (klog.Sink 0 [klog.Entry klog.infoLog 1 "k=1"]).
Proof.
  split; [reflexivity|]. split; [reflexivity|].
  destruct (Info_text_assembled New EmptyString [Str "k"; Int 1] app_stack ∅
              (klog.Sink 0 []) eq_refl eq_refl)
    as (fixed & user & fixedStr & userStr & Ht & Hf & Hu & Hinfo).
  rewrite Hinfo. vm_compute in Ht. injection Ht as <- <-.
  vm_compute in Hf, Hu. injection Hf as <-. injection Hu as <-.
  reflexivity.
Defined.

(** X13: for all layers with hashable keys [Error] appends one error
    record and changes nothing else; its text is assembled like that of
    [Info] with the entry of the error between the message and the layers:
    [err=] and the quoted message of the error, or [err=<nil>] for the nil
    error.  The entry is never deduplicated against the layers. *)
Theorem Error_text_assembled l err msg kvList stack (h : heap) s :
  layers_hashable [Go.load h (values l); kvList] = true ->
  exists fixed user fixedStr userStr,
    trimDuplicates [Go.load h (values l); kvList] = Ok [fixed; user] /\
    kvListFormat fixed = Ok fixedStr /\
    kvListFormat user = Ok userStr /\
    Error l err msg kvList stack h s =
      Ok (klog.Sink (klog.verbosity s)
            (klog.written s ++
               [klog.Entry klog.errorLog (framesToCaller stack)
                  (assemble
                     ((if String.eqb (prefix l) EmptyString then []
                       else [prefix l +:+ ":"])
                      ++ [msg;
                          "err=" +:+ match err with
                                     | None => "<nil>"
                                     | Some m => Fmt.Quote m
                                     end;
                          fixedStr; userStr]))])).
Proof.
  intros Hhash.
  exists (trimmed_fixed (Go.load h (values l)) kvList), (trimmed_user kvList).
  exists (render (trimmed_fixed (Go.load h (values l)) kvList)),
         (render (trimmed_user kvList)).
  split; [by apply trimDuplicates_two|].
  split; [apply kvListFormat_render|]. split; [apply kvListFormat_render|].
  rewrite Error_spec by done. unfold error_text. rewrite concatenate_text.
  by destruct err.
Qed.

(** A call whose own key is ["err"]: both entries are written. *)
Lemma Error_text_assembled_witness :
  layers_hashable [Go.load ∅ (values New); [Str "err"; Int 1]] = true /\
  Error New None "msg" [Str "err"; Int 1] app_stack ∅ (klog.Sink 0 [])
  = Ok (klog.Sink 0 [klog.Entry klog.errorLog 1 "msg err=<nil> err=1"]).
Proof.
  split; [reflexivity|].
  destruct (Error_text_assembled New None "msg" [Str "err"; Int 1] app_stack ∅
              (klog.Sink 0 []) eq_refl)
    as (fixed & user & fixedStr & userStr & Ht & Hf & Hu & Herr).
  rewrite Herr. vm_compute in Ht. injection Ht as <- <-.
  vm_compute in Hf, Hu. injection Hf as <-. injection Hu as <-.
  reflexivity.
Defined.

(** ** Copies *)



(** ** Levels *)

(** X16: the level of a logger reaches the sink through a conversion to
    [int32]: two levels that differ by a multiple of 2^32 are enabled
    alike, and among levels in the [int32] range a logger enabled at a
    level is enabled at every lower one. *)
Theorem Enabled_levels (h : heap) l s :
  (forall n k, Enabled (V l (n + k * 2 ^ 32) h).1 s = Enabled (V l n h).1 s) /\
  (forall m n,
     (- 2 ^ 31 <= m <= n)%Z -> (n < 2 ^ 31)%Z ->
     Enabled (V l n h).1 s = true -> Enabled (V l m h).1 s = true).
Proof.
  split.
  - intros n k. unfold Enabled.
    destruct (V_fields l (n + k * 2 ^ 32) h) as [-> _].
    destruct (V_fields l n h) as [-> _].
    unfold klog.Level.
    replace (n + k * 2 ^ 32 + 2 ^ 31)%Z with (n + 2 ^ 31 + k * 2 ^ 32)%Z by lia.
    by rewrite Z.mod_add by lia.
  - intros m n Hm Hn. unfold Enabled.
    destruct (V_fields l n h) as [-> _]. destruct (V_fields l m h) as [-> _].
    unfold klog.V_Enabled, klog.Level.
    rewrite !Z.leb_le, !Z.mod_small by lia. lia.
Qed.

(** Levels 1 and 3 on a sink with threshold 3. *)
Lemma Enabled_levels_witness :
  Enabled (V New 3 ∅).1 (klog.Sink 3 []) = true /\
  Enabled (V New 1 ∅).1 (klog.Sink 3 []) = true.
Proof.
  split; [reflexivity|].
  apply (proj2 (Enabled_levels ∅ New (klog.Sink 3 [])) 1%Z 3%Z).
  - lia.
  - lia.
  - reflexivity.
Defined.

(** ** The only panic of the deduplication *)

(** X15: [trimDuplicates] either returns its layers or panics on a key
    without a hash; it returns exactly when every key is hashable, whatever
    the number and the lengths of the layers, and it never indexes out of
    range. *)
Theorem trimDuplicates_only_panic kvLists :
  (layers_hashable kvLists = true <->
   exists outs, trimDuplicates kvLists = Ok outs) /\
  (layers_hashable kvLists = false <->
   trimDuplicates kvLists = Panic unhashable_panic) /\
  trimDuplicates kvLists <> Panic "runtime error: index out of range".
Proof.
  destruct (layers_hashable kvLists) eqn:Hhash.
  - rewrite trimDuplicates_spec by done. split; [|split].
    + split; [eauto|done].
    + split; discriminate.
    + discriminate.
  - rewrite trimDuplicates_panics by done. split; [|split].
    + split; [discriminate|]. intros [outs H]. discriminate.
    + done.
    + discriminate.
Qed.
